(** * aiocqhttp.api: the action-invocation layer

    A shallow embedding of [src/aiocqhttp/api.py]: result extraction, the
    HTTP transport, the sequence generator, the result store with its
    pending futures, the reverse-WebSocket transport and the unified
    dispatcher, followed by the properties proved about them. *)

From Stdlib Require Import ZArith Lia Ascii String.
From Stdlib Require Import Floats.SpecFloat.
From stdpp Require Import gmap strings list fin_maps pretty.

Set Warnings "-register-all".
Local Open Scope Z_scope.

(* ===================================================================== *)
(** ** Python values *)
(* ===================================================================== *)

(** What [json.loads] can return and what [**params] can hold: [None],
    [bool], [int], [float], [str], [list] and [dict] with string keys. *)
Inductive value :=
| VNone
| VBool (b : bool)
| VInt (n : Z)
| VFloat (f : spec_float)
| VStr (s : string)
| VList (l : list value)
| VDict (d : gmap string value).

(** [d.get(k)]: the entry, or [None] when the key is missing. *)
Definition dict_get (d : gmap string value) (k : string) : value :=
  default VNone (d !! k).

(** [isinstance(v, dict)]. *)
Definition is_dict (v : value) : bool :=
  match v with VDict _ => true | _ => false end.

(** [v == s] for a string literal [s]: only an equal [str] compares equal. *)
Definition eq_str (v : value) (s : string) : bool :=
  match v with VStr s' => bool_decide (s' = s) | _ => false end.

(** [bool(v)]: Python truthiness. *)
Definition truthy (v : value) : bool :=
  match v with
  | VNone => false
  | VBool b => b
  | VInt n => negb (n =? 0)
  | VFloat f => match f with S754_zero _ => false | _ => true end
  | VStr s => negb (bool_decide (s = ""%string))
  | VList l => match l with [] => false | _ => true end
  | VDict d => negb (bool_decide (d = ∅))
  end.

(** [isinstance(v, int)] together with the dictionary key the value stands
    for: [bool] is a subclass of [int], and [True]/[False] hash and compare
    as [1]/[0]. *)
Definition as_int_key (v : value) : option Z :=
  match v with
  | VInt n => Some n
  | VBool b => Some (if b then 1 else 0)
  | _ => None
  end.

(* ===================================================================== *)
(** ** Exceptions and outcomes *)
(* ===================================================================== *)

(** Modelled from the spec: [aiocqhttp/exceptions.py] is imported by
    [from .exceptions import *] and is not part of the sources at hand.
    Section 7 gives the taxonomy: [ApiNotAvailable] (the spec's
    TransportUnavailable), [ActionFailed] carrying a retcode, [HttpFailed]
    carrying the status code, [NetworkError] carrying a message; the four
    kinds are distinct and none is a subclass of another.  The remaining
    constructors are Python's own exceptions that the module can raise,
    and [OtherError cls] is an exception of any further class [cls] of
    Python or of a library ([RecursionError], [UnicodeDecodeError], the
    [TimeoutError] of a request, ...): the module neither raises nor
    catches those, it only lets them pass. *)
Inductive exn :=
| ApiNotAvailable
| ActionFailed (retcode : value)
| HttpFailed (status_code : Z)
| NetworkError (msg : string)
| TimeoutError
| CancelledError
| InvalidStateError
| KeyError
| AttributeError
| ValueError
| OtherError (cls : string).

Inductive outcome (A : Type) :=
| Ok (a : A)
| Raise (e : exn).
Arguments Ok {A} a.
Arguments Raise {A} e.

Definition obind {A B} (o : outcome A) (k : A → outcome B) : outcome B :=
  match o with Ok a => k a | Raise e => Raise e end.

(** [isinstance(e, ApiNotAvailable)], the test of [except ApiNotAvailable]. *)
Definition is_ApiNotAvailable (e : exn) : bool :=
  match e with ApiNotAvailable => true | _ => false end.

(* ===================================================================== *)
(** ** [_handle_api_result] *)
(* ===================================================================== *)

(** Lines 48-59.  A non-dict falls off the end of the function, which
    returns [None]. *)
Definition _handle_api_result (result : value) : outcome value :=
  match result with
  | VDict d =>
      if eq_str (dict_get d "status") "failed"
      then Raise (ActionFailed (dict_get d "retcode"))
      else Ok (dict_get d "data")
  | _ => Ok VNone
  end.

(* ===================================================================== *)
(** ** [HttpApi] *)
(* ===================================================================== *)

Module HttpApi.

(** [s.rstrip('/')]: drop the slashes at the end, through the reversed
    string. *)
Fixpoint lstrip_slash (r : string) : string :=
  match r with
  | String "/"%char r' => lstrip_slash r'
  | _ => r
  end.

Definition rstrip_slash (s : string) : string :=
  String.rev (lstrip_slash (String.rev s)).

Record t := {
  _api_root : option string;
  _access_token : option string;
}.

(** Lines 69-72. *)
Definition __init__ (api_root access_token : option string) : t :=
  {| _api_root :=
       match api_root with
       | Some r => if bool_decide (r = ""%string) then None else Some (rstrip_slash r)
       | None => None
       end;
     _access_token := access_token |}.

(** Lines 93-94: [bool(self._api_root)]. *)
Definition _is_available (self : t) : bool :=
  match _api_root self with
  | Some r => negb (bool_decide (r = ""%string))
  | None => false
  end.

(** The request handed to [aiohttp.request]. *)
Record request := {
  req_method : string;
  req_url : string;
  req_json : gmap string value;
  req_headers : gmap string string;
}.

(** What the network does with a request: [aiohttp.request] raises
    [InvalidURL], or another [ClientError], or an exception of a class
    [cls] that is no [ClientError] (the [TimeoutError] of the client's
    total timeout, for one); or a response arrives with its status.
    Reading the body with [resp.text()] then gives the text, or raises a
    [ClientError] ([Response] with [None]), or raises an exception of a
    class that is no [ClientError] ([ResponseUnreadable]). *)
Inductive aiohttp_result :=
| RaisesInvalidURL
| RaisesClientError
| RaisesOther (cls : string)
| Response (status : Z) (text : option string)
| ResponseUnreadable (status : Z) (cls : string).

(** What the JSON decoder does with a text: it returns the value, or
    raises [ValueError] (its [JSONDecodeError] is one), or raises an
    exception of another class ([RecursionError] on deep nesting, for
    one). *)
Inductive loads_result :=
| Decoded (v : value)
| NotJSON
| LoadsRaises (cls : string).

(** Lines 78-84: the request that [call_action] builds.  [self._api_root]
    is set whenever the transport is available. *)
Definition build_request (self : t) (action : string)
    (params : gmap string value) : request :=
  let headers : gmap string string :=
    match _access_token self with
    | Some tok =>
        if bool_decide (tok = ""%string) then ∅
        else {[ "Authorization"%string := ("Bearer " +:+ tok)%string ]}
    | None => ∅
    end in
  {| req_method := "POST";
     req_url := (default ""%string (_api_root self) +:+ "/" +:+ action)%string;
     req_json := params;
     req_headers := headers |}.

Section call.
(** The network and the JSON decoder ([ujson] or [json], whichever was
    imported). *)
Variable aiohttp_request : request → aiohttp_result.
Variable json_loads : string → loads_result.

(** Lines 74-91.  [InvalidURL] is caught before its base class
    [ClientError]; neither clause catches what the body of the [async
    with] raises itself, nor an exception of the request, the body or the
    decoder that is no [ClientError]: those leave the call as they are.
    The body is read only when the status is 2xx. *)
Definition call_action (self : t) (action : string)
    (params : gmap string value) : outcome value :=
  if negb (_is_available self) then Raise ApiNotAvailable
  else
    match aiohttp_request (build_request self action params) with
    | RaisesInvalidURL => Raise (NetworkError "API root url invalid")
    | RaisesClientError =>
        Raise (NetworkError "HTTP request failed with client error")
    | RaisesOther cls => Raise (OtherError cls)
    | Response status text =>
        if (200 <=? status) && (status <? 300) then
          match text with
          | None => Raise (NetworkError "HTTP request failed with client error")
          | Some body =>
              match json_loads body with
              | Decoded v => _handle_api_result v
              | NotJSON => Raise ValueError
              | LoadsRaises cls => Raise (OtherError cls)
              end
          end
        else Raise (HttpFailed status)
    | ResponseUnreadable status cls =>
        if (200 <=? status) && (status <? 300) then Raise (OtherError cls)
        else Raise (HttpFailed status)
    end.

End call.
End HttpApi.

(* ===================================================================== *)
(** ** [_SequenceGenerator] *)
(* ===================================================================== *)

Module _SequenceGenerator.

(** The class attribute [_seq]. *)
Record t := { _seq : Z }.

(** Line 98: [_seq = 1]. *)
Definition initial : t := {| _seq := 1 |}.

Section platform.
(** [sys.maxsize], the largest value of a [Py_ssize_t] on the platform
    the interpreter was built for. *)
Variable sys_maxsize : Z.

(** Lines 100-104.  Python's [%] with a positive modulus is [Z.modulo]. *)
Definition next (cls : t) : Z * t :=
  let s := _seq cls in
  (s, {| _seq := (_seq cls + 1) mod sys_maxsize |}).

(** The generator after [n] calls of [next]. *)
Definition after (n : N) (cls : t) : t :=
  N.iter n (λ g, snd (next g)) cls.

(** The identifier returned by call number [n + 1] since import. *)
Definition nth_id (n : N) : Z := fst (next (after n initial)).

End platform.

(** [sys.maxsize] of the 64-bit and of the 32-bit builds of CPython. *)
Definition maxsize_64 : Z := 2 ^ 63 - 1.
Definition maxsize_32 : Z := 2 ^ 31 - 1.

End _SequenceGenerator.

(* ===================================================================== *)
(** ** [ResultStore] *)
(* ===================================================================== *)

Module ResultStore.

(** An [asyncio.Future]: pending, holding a result, or cancelled. *)
Inductive future_state :=
| Pending
| Finished (result : value)
| Cancelled.

(** The class attribute [_futures], a dict from sequence number to a
    future, and the future objects themselves: a future is referred to by
    its index in [heap], so that a waiter keeps its own future when the
    dict entry is overwritten or deleted. *)
Record t := {
  _futures : gmap Z nat;
  heap : list future_state;
}.

Definition empty : t := {| _futures := ∅; heap := [] |}.

(** [loop.create_future()]. *)
Definition create_future (h : list future_state) : nat * list future_state :=
  (length h, h ++ [Pending]).

(** [future.set_result(result)]: only a pending future takes a result. *)
Definition set_result (future : nat) (result : value)
    (h : list future_state) : outcome (list future_state) :=
  match h !! future with
  | Some Pending => Ok (<[future := Finished result]> h)
  | _ => Raise InvalidStateError
  end.

(** [future.cancel()]: no effect on a future that is done. *)
Definition cancel (future : nat) (h : list future_state) : list future_state :=
  match h !! future with
  | Some Pending => <[future := Cancelled]> h
  | _ => h
  end.

(** The key [result['echo']['seq']] when the test of lines 112-113
    passes. *)
Definition echo_seq (result : gmap string value) : option Z :=
  match dict_get result "echo" with
  | VDict echo => as_int_key (dict_get echo "seq")
  | _ => None
  end.

(** Lines 110-116.  [result.get] on a value that is no dict raises
    [AttributeError]; a future object is always truthy. *)
Definition add (result : value) (cls : t) : outcome unit * t :=
  match result with
  | VDict d =>
      match echo_seq d with
      | Some seq =>
          match _futures cls !! seq with
          | Some future =>
              match set_result future result (heap cls) with
              | Ok h => (Ok (), {| _futures := _futures cls; heap := h |})
              | Raise e => (Raise e, cls)
              end
          | None => (Ok (), cls)
          end
      | None => (Ok (), cls)
      end
  | _ => (Raise AttributeError, cls)
  end.

(** Lines 120-121: the part of [fetch] that runs before it suspends. *)
Definition fetch_register (seq : Z) (cls : t) : nat * t :=
  let '(future, h) := create_future (heap cls) in
  (future, {| _futures := <[seq := future]> (_futures cls); heap := h |}).

(** What ends the suspension in [asyncio.wait_for(future, 60)]: the future
    holds a result, the 60 seconds are over, or the waiting task is
    cancelled from outside. *)
Inductive wakeup :=
| Fulfilled (result : value)
| TimedOut
| TaskCancelled.

(** The seconds given to [asyncio.wait_for] on line 123. *)
Definition wait_seconds : Z := 60.

(** Line 123, as the waiter sees it. *)
Definition wait_for (w : wakeup) : outcome value :=
  match w with
  | Fulfilled result => Ok result
  | TimedOut => Raise TimeoutError
  | TaskCancelled => Raise CancelledError
  end.

(** What [wait_for] does to the awaited future: it cancels it on a timeout
    and when the wait itself is cancelled. *)
Definition wait_for_effect (future : nat) (w : wakeup)
    (h : list future_state) : list future_state :=
  match w with
  | Fulfilled _ => h
  | TimedOut | TaskCancelled => cancel future h
  end.

(** Lines 122-130: the part of [fetch] that runs when it is resumed.  The
    [except] clause turns [TimeoutError] into [NetworkError]; the [finally]
    clause runs on every way out, and the [KeyError] of [del] on a missing
    key replaces whatever was being returned or raised. *)
Definition fetch_resume (seq : Z) (future : nat) (w : wakeup) (cls : t)
    : outcome value * t :=
  let h := wait_for_effect future w (heap cls) in
  let o :=
    match wait_for w with
    | Raise TimeoutError => Raise (NetworkError "WebSocket API call timeout")
    | o => o
    end in
  match _futures cls !! seq with
  | Some _ => (o, {| _futures := delete seq (_futures cls); heap := h |})
  | None => (Raise KeyError, {| _futures := _futures cls; heap := h |})
  end.

End ResultStore.

(* ===================================================================== *)
(** ** The event loop around the store *)
(* ===================================================================== *)

(** [fetch] is a coroutine: between its registration and its resumption
    other coroutines run.  The loop below holds the store, a clock in
    seconds and every invocation of [ResultStore.fetch] made so far; an
    event is one uninterrupted run of a callback.  [asyncio.wait_for] is
    taken at its documented contract: a waiter whose future holds a result
    wakes up with it, also when its time is over; the timer wakes a waiter
    whose future is still pending, and cancels that future; cancelling the
    waiting task raises [CancelledError] in it and cancels the future. *)
Module Loop.

Inductive status :=
| Waiting
| Exited (o : outcome value).

(** One invocation of [fetch(seq)]: its argument, the future it created,
    the time at which its [wait_for] expires, and how far it got. *)
Record call := {
  c_seq : Z;
  c_future : nat;
  c_deadline : Z;
  c_status : status;
}.

Record t := {
  now : Z;
  store : ResultStore.t;
  calls : list call;
}.

Definition initial : t :=
  {| now := 0; store := ResultStore.empty; calls := [] |}.

Inductive event :=
| EFetch (seq : Z)          (* a task calls [ResultStore.fetch(seq)] *)
| EAdd (result : value)     (* the inbound side calls [ResultStore.add] *)
| EResume (i : nat)         (* call [i] wakes up with its future's result *)
| EExpire (i : nat)         (* the timer of call [i] fires *)
| ECancel (i : nat)         (* the task of call [i] is cancelled *)
| EAdvance (d : Z).         (* [d] seconds pass *)

Definition is_waiting (c : call) : bool :=
  match c_status c with Waiting => true | Exited _ => false end.

(** Call [i] leaves [fetch] after the wake-up [w]. *)
Definition leave (i : nat) (c : call) (w : ResultStore.wakeup) (s : t) : t :=
  let '(o, st) := ResultStore.fetch_resume (c_seq c) (c_future c) w (store s) in
  {| now := now s;
     store := st;
     calls := <[i := {| c_seq := c_seq c; c_future := c_future c;
                        c_deadline := c_deadline c;
                        c_status := Exited o |}]> (calls s) |}.

(** One event; [None] when the event cannot happen in state [s]. *)
Definition step (e : event) (s : t) : option t :=
  match e with
  | EFetch seq =>
      let '(future, st) := ResultStore.fetch_register seq (store s) in
      Some {| now := now s;
              store := st;
              calls := calls s ++
                [{| c_seq := seq; c_future := future;
                    c_deadline := now s + ResultStore.wait_seconds;
                    c_status := Waiting |}] |}
  | EAdd result =>
      Some {| now := now s;
              store := snd (ResultStore.add result (store s));
              calls := calls s |}
  | EResume i =>
      match calls s !! i with
      | Some c =>
          if is_waiting c then
            match ResultStore.heap (store s) !! c_future c with
            | Some (ResultStore.Finished r) =>
                Some (leave i c (ResultStore.Fulfilled r) s)
            | _ => None
            end
          else None
      | None => None
      end
  | EExpire i =>
      match calls s !! i with
      | Some c =>
          if is_waiting c && (c_deadline c <=? now s) then
            match ResultStore.heap (store s) !! c_future c with
            | Some ResultStore.Pending => Some (leave i c ResultStore.TimedOut s)
            | _ => None
            end
          else None
      | None => None
      end
  | ECancel i =>
      match calls s !! i with
      | Some c =>
          if is_waiting c then Some (leave i c ResultStore.TaskCancelled s)
          else None
      | None => None
      end
  | EAdvance d =>
      if 0 <=? d then
        Some {| now := now s + d; store := store s; calls := calls s |}
      else None
  end.

Fixpoint run (evs : list event) (s : t) : option t :=
  match evs with
  | [] => Some s
  | e :: evs' =>
      match step e s with
      | Some s' => run evs' s'
      | None => None
      end
  end.

(** The states the loop can be in. *)
Definition reachable (s : t) : Prop := ∃ evs, run evs initial = Some s.

(** The status of call [i]. *)
Definition status_of (i : nat) (s : t) : option status :=
  c_status <$> calls s !! i.

(** The event is a reply that carries sequence number [seq]. *)
Definition resolves (seq : Z) (e : event) : bool :=
  match e with
  | EAdd (VDict d) => bool_decide (ResultStore.echo_seq d = Some seq)
  | _ => false
  end.

(** The event is another [fetch] of sequence number [seq]. *)
Definition refetches (seq : Z) (e : event) : bool :=
  match e with
  | EFetch k => bool_decide (k = seq)
  | _ => false
  end.

(** The event wakes call [i]. *)
Definition targets (i : nat) (e : event) : bool :=
  match e with
  | EResume j | EExpire j | ECancel j => bool_decide (j = i)
  | _ => false
  end.

(** The event leaves the wait of call [i] on [seq] alone; [replies] tells
    whether replies for [seq] are let through. *)
Definition undisturbed (seq : Z) (i : nat) (replies : bool) (e : event) : Prop :=
  refetches seq e = false ∧ targets i e = false
  ∧ (replies = false → resolves seq e = false).

(** What every reachable state satisfies: each call created one future,
    the one at its own index, and every entry of [_futures] belongs to a
    call that is still waiting for that sequence number. *)
Definition wf (s : t) : Prop :=
  length (ResultStore.heap (store s)) = length (calls s)
  ∧ (∀ i c, calls s !! i = Some c → c_future c = i)
  ∧ (∀ k f, ResultStore._futures (store s) !! k = Some f →
       ∃ c, calls s !! f = Some c ∧ c_seq c = k ∧ c_status c = Waiting).

(** No waiting call was made with sequence number [seq]: the identifier
    is unique among the pending calls. *)
Definition unheld (seq : Z) (s : t) : Prop :=
  ∀ j c, calls s !! j = Some c → c_status c = Waiting → c_seq c ≠ seq.

(** Call [i] is the one waiting on [seq]: it was made with [seq] and has
    not left, [_futures] maps [seq] to its future, that future is in state
    [fs], and no other waiting call was made with [seq]. *)
Definition holds (seq : Z) (i : nat) (deadline : Z)
    (fs : ResultStore.future_state) (s : t) : Prop :=
  calls s !! i = Some {| c_seq := seq; c_future := i;
                         c_deadline := deadline; c_status := Waiting |}
  ∧ ResultStore._futures (store s) !! seq = Some i
  ∧ ResultStore.heap (store s) !! i = Some fs
  ∧ (∀ j c, calls s !! j = Some c → c_status c = Waiting → c_seq c = seq → j = i).

End Loop.

(* ===================================================================== *)
(** ** [WebSocketReverseApi] *)
(* ===================================================================== *)

Module WebSocketReverseApi.

(** A handle on a live connection ([quart]'s [Websocket]); handles are
    objects and therefore truthy. *)
Definition Websocket := nat.

(** [self._clients]: the registry shared with the connection handlers. *)
Record t := { _clients : gmap string Websocket }.

(** [quart.websocket], a context-local proxy: unbound (and falsy) outside
    a WebSocket handler, otherwise the current connection, whose headers
    may or may not hold [X-Self-ID]. *)
Inductive event_ws :=
| Unbound
| Bound (x_self_id : option string).

(** Lines 162-164.  Subscripting the headers raises [KeyError] when the
    header is missing. *)
Definition _is_available (self : t) (ctx : event_ws) : outcome bool :=
  match ctx with
  | Unbound => Ok false
  | Bound None => Raise KeyError
  | Bound (Some id) => Ok (bool_decide (is_Some (_clients self !! id)))
  end.

(** What the transport shares with the rest of the process while it
    sends: the sequence generator and, per connection, the frames handed
    to [send], oldest first. *)
Record wire := {
  gen : _SequenceGenerator.t;
  sent : list (Websocket * string);
}.

Section call.
(** [repr] of a float, a list or a dict, and the JSON encoder ([ujson] or
    [json], whichever was imported): both are Python's, and only [str] of
    the other values is spelled out. *)
Variable py_repr : value → string.
Variable json_dumps : value → string.
(** [sys.maxsize], for the sequence generator. *)
Variable sys_maxsize : Z.

(** [str(v)]. *)
Definition py_str (v : value) : string :=
  match v with
  | VNone => "None"
  | VBool true => "True"
  | VBool false => "False"
  | VInt n => pretty n
  | VStr s => s
  | _ => py_repr v
  end.

(** Lines 145-154: the connection the call goes to. *)
Definition select (self : t) (ctx : event_ws)
    (params : gmap string value) : outcome Websocket :=
  obind (_is_available self ctx) (λ available,
    let api_ws : option Websocket :=
      if available then
        match ctx with
        | Bound (Some id) => _clients self !! id
        | _ => None
        end
      else if truthy (dict_get params "self_id") then
        _clients self !! py_str (dict_get params "self_id")
      else if bool_decide (size (_clients self) = 1%nat) then
        snd <$> head (map_to_list (_clients self))
      else None in
    match api_ws with
    | Some ws => Ok ws
    | None => Raise ApiNotAvailable
    end).

(** The object given to [json.dumps] on lines 157-159. *)
Definition frame (action : string) (params : gmap string value) (seq : Z)
    : value :=
  VDict {[ "action"%string := VStr action;
           "params"%string := VDict params;
           "echo"%string := VDict {[ "seq"%string := VInt seq ]} ]}.

(** Lines 145-159: up to the frame being sent.  The result is the
    sequence number that [ResultStore.fetch] is then called with.
    [await api_ws.send(...)] is the connection's business: here it records
    the frame, and a [send] that raises ends the call before the store is
    touched.  The future is registered only after [send] has returned, so
    [fetch] is an event of its own in the loop above. *)
Definition call_action_send (self : t) (ctx : event_ws) (action : string)
    (params : gmap string value) (w : wire) : outcome Z * wire :=
  match select self ctx params with
  | Raise e => (Raise e, w)
  | Ok api_ws =>
      let '(seq, g) := _SequenceGenerator.next sys_maxsize (gen w) in
      (Ok seq,
       {| gen := g;
          sent := sent w ++ [(api_ws, json_dumps (frame action params seq))] |})
  end.

(** The selection rule as section 4.4 words it, for comparison with
    [select]: the first of (a) the identity of the active context if
    present and registered, (b) the [self_id] parameter if supplied and
    registered, (c) the sole registered connection, that yields a
    connection. *)
Definition select_as_specified (self : t) (ctx : event_ws)
    (params : gmap string value) : outcome Websocket :=
  let by_context :=
    match ctx with
    | Bound (Some id) => _clients self !! id
    | _ => None
    end in
  let by_self_id :=
    if truthy (dict_get params "self_id")
    then _clients self !! py_str (dict_get params "self_id")
    else None in
  let sole :=
    if bool_decide (size (_clients self) = 1%nat)
    then snd <$> head (map_to_list (_clients self))
    else None in
  match by_context, by_self_id, sole with
  | Some ws, _, _ => Ok ws
  | None, Some ws, _ => Ok ws
  | None, None, Some ws => Ok ws
  | None, None, None => Raise ApiNotAvailable
  end.

(** The active context names no registered peer: there is none, or its
    [X-Self-ID] is not in the registry. *)
Definition no_event_peer (self : t) (ctx : event_ws) : Prop :=
  match ctx with
  | Unbound => True
  | Bound (Some id) => _clients self !! id = None
  | Bound None => False
  end.

(** Line 160: what the call makes of the way [fetch] ended. *)
Definition call_action_result (fetched : outcome value) : outcome value :=
  obind fetched _handle_api_result.

End call.
End WebSocketReverseApi.

(* ===================================================================== *)
(** ** [Api] and [UnifiedApi] *)
(* ===================================================================== *)

Module UnifiedApi.

Section dispatcher.
(** Whatever a transport can read and change while it runs. *)
Context {W : Type}.

(** The interface [Api]: an object with [call_action]. *)
Record Api := { api_call_action : string → gmap string value → W → outcome value * W }.

(** Lines 174-177.  An [Api] object is truthy, so [if self._wsr_api] asks
    whether one was given. *)
Record t := {
  _http_api : option Api;
  _wsr_api : option Api;
}.

(** [try: result = await api.call_action(...); succeeded = True
     except ApiNotAvailable: pass], from the variables [result] and
    [succeeded] as they stand. *)
Definition attempt (api : Api) (action : string) (params : gmap string value)
    (result : value) (succeeded : bool) (w : W)
    : outcome (value * bool) * W :=
  match api_call_action api action params w with
  | (Ok r, w') => (Ok (r, true), w')
  | (Raise e, w') =>
      if is_ApiNotAvailable e then (Ok (result, succeeded), w')
      else (Raise e, w')
  end.

(** Lines 179-200. *)
Definition call_action (self : t) (action : string)
    (params : gmap string value) (w : W) : outcome value * W :=
  let result := VNone in
  let succeeded := false in
  let first :=
    match _wsr_api self with
    | Some api => attempt api action params result succeeded w
    | None => (Ok (result, succeeded), w)
    end in
  match first with
  | (Raise e, w1) => (Raise e, w1)
  | (Ok (result, succeeded), w1) =>
      let second :=
        match _http_api self with
        | Some api =>
            if negb succeeded then attempt api action params result succeeded w1
            else (Ok (result, succeeded), w1)
        | None => (Ok (result, succeeded), w1)
        end in
      match second with
      | (Raise e, w2) => (Raise e, w2)
      | (Ok (result, succeeded), w2) =>
          if negb succeeded then (Raise ApiNotAvailable, w2)
          else (Ok result, w2)
      end
  end.

End dispatcher.
Arguments Api : clear implicits.
Arguments t : clear implicits.

(** The two transports, for the record of who was invoked. *)
Inductive transport := Wsr | Http.

(** A transport that notes each invocation in a log kept beside the
    world. *)
Definition traced {W} (tag : transport) (api : Api W) : Api (list transport * W) :=
  {| api_call_action := λ action params '(log, w),
       let '(o, w') := api_call_action api action params w in
       (o, (log ++ [tag], w')) |}.

(** The dispatcher over two transports whose invocations are logged. *)
Definition both {W} (wsr http : Api W) : t (list transport * W) :=
  {| _http_api := Some (traced Http http);
     _wsr_api := Some (traced Wsr wsr) |}.

(** The dispatcher with no transport at all. *)
Definition neither {W} : t W := {| _http_api := None; _wsr_api := None |}.

(** [HttpApi] as an [Api]: it changes nothing the model tracks. *)
Definition of_http {W} (aiohttp_request : HttpApi.request → HttpApi.aiohttp_result)
    (json_loads : string → HttpApi.loads_result) (h : HttpApi.t) : Api W :=
  {| api_call_action := λ action params w,
       (HttpApi.call_action aiohttp_request json_loads h action params, w) |}.

End UnifiedApi.

(* ===================================================================== *)
(** ** Concrete instances used in the examples *)
(* ===================================================================== *)

Module Fixtures.

(** A backend at [http://bot]: [get_status] answers 200 with the body named
    [ok], [send_msg] answers 200 with the body named [failed], [get_list]
    answers 200 with the body named [list], anything else answers 500. *)
Definition net (r : HttpApi.request) : HttpApi.aiohttp_result :=
  if bool_decide (HttpApi.req_url r = "http://bot/get_status"%string)
  then HttpApi.Response 200 (Some "ok"%string)
  else if bool_decide (HttpApi.req_url r = "http://bot/send_msg"%string)
  then HttpApi.Response 200 (Some "failed"%string)
  else if bool_decide (HttpApi.req_url r = "http://bot/get_list"%string)
  then HttpApi.Response 200 (Some "list"%string)
  else HttpApi.Response 500 None.

Definition ok_body : gmap string value :=
  {[ "status"%string := VStr "ok";
     "data"%string := VDict {[ "x"%string := VInt 1 ]} ]}.

Definition failed_body : gmap string value :=
  {[ "status"%string := VStr "failed"; "retcode"%string := VInt 100 ]}.

(** The decoder on the three bodies above. *)
Definition loads (text : string) : HttpApi.loads_result :=
  if bool_decide (text = "ok"%string) then HttpApi.Decoded (VDict ok_body)
  else if bool_decide (text = "failed"%string)
  then HttpApi.Decoded (VDict failed_body)
  else if bool_decide (text = "list"%string)
  then HttpApi.Decoded (VList [VInt 1; VInt 2])
  else HttpApi.NotJSON.

Definition http : HttpApi.t := HttpApi.__init__ (Some "http://bot/"%string) None.

(** Stand-ins for [repr] and [json.dumps] where their output plays no
    part. *)
Definition repr (_ : value) : string := "<repr>".
Definition dumps (_ : value) : string := "<json>".

(** A persistent transport that is never available and one that answers
    every call with [42]; a world that counts nothing. *)
Definition wsr_down : UnifiedApi.Api unit :=
  {| UnifiedApi.api_call_action := λ _ _ w, (Raise ApiNotAvailable, w) |}.
Definition wsr_up : UnifiedApi.Api unit :=
  {| UnifiedApi.api_call_action := λ _ _ w, (Ok (VInt 42), w) |}.
Definition wsr_timeout : UnifiedApi.Api unit :=
  {| UnifiedApi.api_call_action := λ _ _ w,
       (Raise (NetworkError "WebSocket API call timeout"), w) |}.
Definition http_api : UnifiedApi.Api unit := UnifiedApi.of_http net loads http.

(** A reply to sequence number [seq] that reports success with data 7. *)
Definition reply (seq : Z) : gmap string value :=
  {[ "status"%string := VStr "ok"; "data"%string := VInt 7;
     "echo"%string := VDict {[ "seq"%string := VInt seq ]} ]}.

(** A call waiting on 5 since time 0, and the loop that holds only it. *)
Definition waiting_on_5 : Loop.call :=
  {| Loop.c_seq := 5; Loop.c_future := 0; Loop.c_deadline := 60;
     Loop.c_status := Loop.Waiting |}.

Definition one_waiting : Loop.t :=
  {| Loop.now := 0;
     Loop.store :=
       {| ResultStore._futures := {[ 5 := 0%nat ]};
          ResultStore.heap := [ResultStore.Pending] |};
     Loop.calls := [waiting_on_5] |}.

(** The transport with one connection, registered as 123, and the wire
    before the first call. *)
Definition one_client : WebSocketReverseApi.t :=
  {| WebSocketReverseApi._clients := {[ "123"%string := 7%nat ]} |}.

Definition fresh_wire : WebSocketReverseApi.wire :=
  {| WebSocketReverseApi.gen := _SequenceGenerator.initial;
     WebSocketReverseApi.sent := [] |}.

(** A second call waiting on 5, and the loop with both. *)
Definition again_on_5 : Loop.call :=
  {| Loop.c_seq := 5; Loop.c_future := 1; Loop.c_deadline := 60;
     Loop.c_status := Loop.Waiting |}.

Definition two_on_5 : Loop.t :=
  {| Loop.now := 0;
     Loop.store :=
       {| ResultStore._futures := {[ 5 := 1%nat ]};
          ResultStore.heap := [ResultStore.Pending; ResultStore.Pending] |};
     Loop.calls := [waiting_on_5; again_on_5] |}.

(** The loop after a wait on 5, a stray reply for 3, a wait on 6 and 60
    seconds. *)
Definition two_waiting : Loop.t :=
  {| Loop.now := 60;
     Loop.store :=
       {| ResultStore._futures := {[ 5 := 0%nat; 6 := 1%nat ]};
          ResultStore.heap := [ResultStore.Pending; ResultStore.Pending] |};
     Loop.calls :=
       [ {| Loop.c_seq := 5; Loop.c_future := 0; Loop.c_deadline := 60;
            Loop.c_status := Loop.Waiting |};
         {| Loop.c_seq := 6; Loop.c_future := 1; Loop.c_deadline := 60;
            Loop.c_status := Loop.Waiting |} ] |}.

End Fixtures.

(* ===================================================================== *)
(** ** Notions used to state the further properties *)
(* ===================================================================== *)

(** The string of [n] slashes. *)
Fixpoint slashes (n : nat) : string :=
  match n with
  | O => ""
  | S n => String "/"%char (slashes n)
  end.

(** The results that futures hold and that calls have returned are
    replies that carry the call's own sequence number. *)
Definition correlated (s : Loop.t) : Prop :=
  (∀ i c r,
     Loop.calls s !! i = Some c →
     ResultStore.heap (Loop.store s) !! i = Some (ResultStore.Finished r) →
     ∃ d, r = VDict d ∧ ResultStore.echo_seq d = Some (Loop.c_seq c))
  ∧ (∀ i c r,
     Loop.calls s !! i = Some c →
     Loop.c_status c = Loop.Exited (Ok r) →
     ∃ d, r = VDict d ∧ ResultStore.echo_seq d = Some (Loop.c_seq c)).

(** The dispatcher over whichever transports are given, each logging its
    invocations. *)
Definition logged_dispatcher {W} (wsr http : option (UnifiedApi.Api W))
    : UnifiedApi.t (list UnifiedApi.transport * W) :=
  {| UnifiedApi._http_api := UnifiedApi.traced UnifiedApi.Http <$> http;
     UnifiedApi._wsr_api := UnifiedApi.traced UnifiedApi.Wsr <$> wsr |}.

(** The persistent transport is missing or answers [ApiNotAvailable] in
    world [w]; and the world it leaves behind. *)
Definition wsr_unavailable {W} (wsr : option (UnifiedApi.Api W))
    (action : string) (params : gmap string value) (w : W) : Prop :=
  match wsr with
  | None => True
  | Some api =>
      fst (UnifiedApi.api_call_action api action params w) = Raise ApiNotAvailable
  end.

Definition after_wsr {W} (wsr : option (UnifiedApi.Api W))
    (action : string) (params : gmap string value) (w : W) : W :=
  match wsr with
  | None => w
  | Some api => snd (UnifiedApi.api_call_action api action params w)
  end.

(* ===================================================================== *)
(** ** The persistent transport and the loop together *)
(* ===================================================================== *)

(** A process in which [ResultStore.fetch] is called by
    [WebSocketReverseApi.call_action] only, as in the module itself.  A
    call runs in two uninterrupted pieces: lines 145-159 up to the [await]
    of [send], and, once [send] has returned, the entry into [fetch] with
    the number drawn before; other coroutines run in between. *)
Module Process.

(** The wire, the loop, and the sequence numbers of the calls that have
    sent their frame and not yet entered [fetch], oldest first.  [issued]
    counts the numbers drawn so far; the code does not keep it. *)
Record t := {
  wire : WebSocketReverseApi.wire;
  loop : Loop.t;
  sending : list Z;
  issued : N;
}.

Definition initial : t :=
  {| wire := {| WebSocketReverseApi.gen := _SequenceGenerator.initial;
                WebSocketReverseApi.sent := [] |};
     loop := Loop.initial;
     sending := [];
     issued := 0 |}.

Inductive event :=
| PSend (self : WebSocketReverseApi.t) (ctx : WebSocketReverseApi.event_ws)
    (action : string) (params : gmap string value)
                        (* a call runs up to the [await] of [send] *)
| PFetch (k : nat)      (* sending call [k] enters [fetch] *)
| PAbandon (k : nat)    (* sending call [k] ends before [fetch]: [send]
                           raised, or its task was cancelled *)
| PLoop (e : Loop.event).
                        (* a reply, a wake-up or the clock; not [EFetch],
                           which only a call makes *)

Section process.
Variable py_repr : value → string.
Variable json_dumps : value → string.
Variable sys_maxsize : Z.

Definition step (e : event) (p : t) : option t :=
  match e with
  | PSend self ctx action params =>
      match WebSocketReverseApi.call_action_send py_repr json_dumps sys_maxsize
              self ctx action params (wire p) with
      | (Ok seq, w) =>
          Some {| wire := w; loop := loop p; sending := sending p ++ [seq];
                  issued := N.succ (issued p) |}
      | (Raise _, w) =>
          Some {| wire := w; loop := loop p; sending := sending p;
                  issued := issued p |}
      end
  | PFetch k =>
      match sending p !! k with
      | Some seq =>
          match Loop.step (Loop.EFetch seq) (loop p) with
          | Some l =>
              Some {| wire := wire p; loop := l; sending := delete k (sending p);
                      issued := issued p |}
          | None => None
          end
      | None => None
      end
  | PAbandon k =>
      match sending p !! k with
      | Some _ =>
          Some {| wire := wire p; loop := loop p; sending := delete k (sending p);
                  issued := issued p |}
      | None => None
      end
  | PLoop e =>
      match e with
      | Loop.EFetch _ => None
      | _ =>
          match Loop.step e (loop p) with
          | Some l =>
              Some {| wire := wire p; loop := l; sending := sending p;
                      issued := issued p |}
          | None => None
          end
      end
  end.

Fixpoint run (evs : list event) (p : t) : option t :=
  match evs with
  | [] => Some p
  | e :: evs' =>
      match step e p with
      | Some p' => run evs' p'
      | None => None
      end
  end.

Definition reachable (p : t) : Prop := ∃ evs, run evs initial = Some p.

(** The sequence numbers in use: those of the sending calls and those
    [fetch] was entered with. *)
Definition in_use (p : t) : list Z :=
  sending p ++ (Loop.c_seq <$> Loop.calls (loop p)).

(** What the process keeps: the generator has been called [issued] times,
    every number in use was drawn by one of those calls, and no number is
    in use twice as long as no more than [sys.maxsize] were drawn. *)
Definition inv (p : t) : Prop :=
  WebSocketReverseApi.gen (wire p)
  = _SequenceGenerator.after sys_maxsize (issued p) _SequenceGenerator.initial
  ∧ (∀ x, x ∈ in_use p →
       ∃ j, (j < issued p)%N ∧ x = _SequenceGenerator.nth_id sys_maxsize j)
  ∧ (Z.of_N (issued p) ≤ sys_maxsize → NoDup (in_use p))
  ∧ Loop.reachable (loop p).

(** The process event leaves the wait of call [i] on [seq] alone: it is
    no reply for [seq] and does not wake [i]. *)
Definition quiet (seq : Z) (i : nat) (e : event) : Prop :=
  match e with
  | PLoop l => Loop.resolves seq l = false ∧ Loop.targets i l = false
  | _ => True
  end.

(** The process event does not wake call [i]. *)
Definition unwoken (i : nat) (e : event) : Prop :=
  match e with
  | PLoop l => Loop.targets i l = false
  | _ => True
  end.

End process.
End Process.

Module ProcessFixtures.

(** A process in which one call, [send_msg] with [message=hi], has sent
    its frame with sequence number 1 and not yet entered [fetch]. *)
Definition one_sending : Process.t :=
  {| Process.wire :=
       {| WebSocketReverseApi.gen := {| _SequenceGenerator._seq := 2 |};
          WebSocketReverseApi.sent := [(7%nat, "<json>"%string)] |};
     Process.loop := Loop.initial;
     Process.sending := [1];
     Process.issued := 1 |}.

Definition send_hi : Process.event :=
  Process.PSend Fixtures.one_client WebSocketReverseApi.Unbound "send_msg"
    {[ "message"%string := VStr "hi" ]}.

End ProcessFixtures.

(* ===================================================================== *)
(** * Properties *)
(* ===================================================================== *)

(** ** Result extraction *)

Lemma handle_failed (d : gmap string value) :
  dict_get d "status" = VStr "failed" →
  _handle_api_result (VDict d) = Raise (ActionFailed (dict_get d "retcode")).
Proof. intros H. unfold _handle_api_result. by rewrite H. Qed.

Lemma eq_str_false (v : value) (s : string) : v ≠ VStr s → eq_str v s = false.
Proof.
  intros H. destruct v; simpl; try done.
  apply bool_decide_eq_false. congruence.
Qed.

Lemma handle_not_failed (d : gmap string value) :
  dict_get d "status" ≠ VStr "failed" →
  _handle_api_result (VDict d) = Ok (dict_get d "data").
Proof. intros H. unfold _handle_api_result. by rewrite eq_str_false. Qed.

Lemma handle_not_dict (v : value) :
  is_dict v = false → _handle_api_result v = Ok VNone.
Proof. by destruct v. Qed.

Lemma http_call_2xx net loads self action params status body v :
  HttpApi._is_available self = true →
  net (HttpApi.build_request self action params) = HttpApi.Response status (Some body) →
  200 ≤ status < 300 →
  loads body = HttpApi.Decoded v →
  HttpApi.call_action net loads self action params = _handle_api_result v.
Proof.
  intros Hav Hnet Hst Hv. unfold HttpApi.call_action.
  rewrite Hav, Hnet, Hv. simpl.
  destruct (200 <=? status) eqn:E1; [|lia].
  destruct (status <? 300) eqn:E2; [done|lia].
Qed.

Lemma http_call_not_2xx net loads self action params status text :
  HttpApi._is_available self = true →
  net (HttpApi.build_request self action params) = HttpApi.Response status text →
  ¬ (200 ≤ status < 300) →
  HttpApi.call_action net loads self action params = Raise (HttpFailed status).
Proof.
  intros Hav Hnet Hst. unfold HttpApi.call_action.
  rewrite Hav, Hnet. simpl.
  destruct (200 <=? status) eqn:E1; [|done].
  destruct (status <? 300) eqn:E2; [lia|done].
Qed.

(** C5.  An available HTTP transport that receives a 2xx response whose
    body decodes to a JSON object raises [ActionFailed] with the object's
    [retcode] when its [status] is ["failed"], and otherwise returns its
    [data]; on a non-2xx response it raises [HttpFailed] with the status
    code.  The persistent transport applies the same rule to the reply it
    fetched. *)
Theorem C5_result_extraction net loads self action params status text :
  HttpApi._is_available self = true →
  net (HttpApi.build_request self action params) = HttpApi.Response status text →
  (∀ body d,
      200 ≤ status < 300 → text = Some body →
      loads body = HttpApi.Decoded (VDict d) →
      (dict_get d "status" = VStr "failed" →
         HttpApi.call_action net loads self action params
         = Raise (ActionFailed (dict_get d "retcode")))
      ∧ (dict_get d "status" ≠ VStr "failed" →
         HttpApi.call_action net loads self action params
         = Ok (dict_get d "data")))
  ∧ (¬ (200 ≤ status < 300) →
       HttpApi.call_action net loads self action params = Raise (HttpFailed status))
  ∧ (∀ d,
      (dict_get d "status" = VStr "failed" →
         WebSocketReverseApi.call_action_result (Ok (VDict d))
         = Raise (ActionFailed (dict_get d "retcode")))
      ∧ (dict_get d "status" ≠ VStr "failed" →
         WebSocketReverseApi.call_action_result (Ok (VDict d))
         = Ok (dict_get d "data"))).
Proof.
  intros Hav Hnet. repeat split.
  - intros Hf. subst text.
    rewrite (http_call_2xx _ _ _ _ _ _ _ _ Hav Hnet) by done.
    by apply handle_failed.
  - intros Hf. subst text.
    rewrite (http_call_2xx _ _ _ _ _ _ _ _ Hav Hnet) by done.
    by apply handle_not_failed.
  - intros Hst. by eapply http_call_not_2xx.
  - intros Hf. simpl. by apply handle_failed.
  - intros Hf. simpl. by apply handle_not_failed.
Qed.

(** The three cases of section 8: [{status: ok, data: {x: 1}}] gives
    [{x: 1}], [{status: failed, retcode: 100}] raises [ActionFailed 100],
    and status 500 raises [HttpFailed 500]. *)
Lemma C5_result_extraction_witness :
  HttpApi.call_action Fixtures.net Fixtures.loads Fixtures.http "get_status" ∅
    = Ok (VDict {[ "x"%string := VInt 1 ]})
  ∧ HttpApi.call_action Fixtures.net Fixtures.loads Fixtures.http "send_msg" ∅
    = Raise (ActionFailed (VInt 100))
  ∧ HttpApi.call_action Fixtures.net Fixtures.loads Fixtures.http "delete_msg" ∅
    = Raise (HttpFailed 500).
Proof.
  split; [|split].
  - destruct (C5_result_extraction Fixtures.net Fixtures.loads Fixtures.http
                "get_status" ∅ 200 (Some "ok"%string)) as (H & _ & _);
      [reflexivity | reflexivity | ].
    destruct (H "ok"%string Fixtures.ok_body) as [_ H'];
      [lia | reflexivity | reflexivity | ].
    apply H'. vm_compute. discriminate.
  - destruct (C5_result_extraction Fixtures.net Fixtures.loads Fixtures.http
                "send_msg" ∅ 200 (Some "failed"%string)) as (H & _ & _);
      [reflexivity | reflexivity | ].
    destruct (H "failed"%string Fixtures.failed_body) as [H' _];
      [lia | reflexivity | reflexivity | ].
    apply H'. reflexivity.
  - destruct (C5_result_extraction Fixtures.net Fixtures.loads Fixtures.http
                "delete_msg" ∅ 500 None) as (_ & H & _);
      [reflexivity | reflexivity | ].
    apply H. lia.
Defined.

(** C10.  A decoded body that is not a JSON object is no error: result
    extraction returns [None], and so do the HTTP transport on a 2xx
    response with such a body and the persistent transport on such a
    reply. *)
Theorem C10_non_object_body (v : value) :
  is_dict v = false →
  _handle_api_result v = Ok VNone
  ∧ (∀ net loads self action params status body,
       HttpApi._is_available self = true →
       net (HttpApi.build_request self action params)
         = HttpApi.Response status (Some body) →
       200 ≤ status < 300 →
       loads body = HttpApi.Decoded v →
       HttpApi.call_action net loads self action params = Ok VNone)
  ∧ WebSocketReverseApi.call_action_result (Ok v) = Ok VNone.
Proof.
  intros Hv. split; [|split].
  - by apply handle_not_dict.
  - intros net loads self action params status body Hav Hnet Hst Hb.
    rewrite (http_call_2xx _ _ _ _ _ _ _ _ Hav Hnet Hst Hb).
    by apply handle_not_dict.
  - simpl. by apply handle_not_dict.
Qed.

Lemma C10_non_object_body_witness :
  HttpApi.call_action Fixtures.net Fixtures.loads Fixtures.http "get_list" ∅
    = Ok VNone.
Proof.
  destruct (C10_non_object_body (VList [VInt 1; VInt 2])) as (_ & H & _);
    [reflexivity|].
  apply (H Fixtures.net Fixtures.loads Fixtures.http "get_list"%string ∅ 200
           "list"%string); [reflexivity | reflexivity | lia | reflexivity].
Defined.

(** ** The unified dispatcher *)

Section failover.
Context {W : Type}.
Implicit Types (wsr http : UnifiedApi.Api W) (log : list UnifiedApi.transport).

Lemma dispatch_wsr_ok wsr http action params log w r w' :
  UnifiedApi.api_call_action wsr action params w = (Ok r, w') →
  UnifiedApi.call_action (UnifiedApi.both wsr http) action params (log, w)
  = (Ok r, (log ++ [UnifiedApi.Wsr], w')).
Proof.
  intros H. unfold UnifiedApi.call_action, UnifiedApi.attempt. simpl.
  by rewrite H.
Qed.

Lemma dispatch_wsr_unavailable wsr http action params log w w' o w'' :
  UnifiedApi.api_call_action wsr action params w = (Raise ApiNotAvailable, w') →
  UnifiedApi.api_call_action http action params w' = (o, w'') →
  UnifiedApi.call_action (UnifiedApi.both wsr http) action params (log, w)
  = (o, (log ++ [UnifiedApi.Wsr; UnifiedApi.Http], w'')).
Proof.
  intros Hw Hh. unfold UnifiedApi.call_action, UnifiedApi.attempt. simpl.
  rewrite Hw. simpl. rewrite Hh.
  rewrite <- app_assoc. simpl.
  destruct o as [r|e]; [done|]. by destruct e.
Qed.

Lemma dispatch_wsr_other wsr http action params log w e w' :
  e ≠ ApiNotAvailable →
  UnifiedApi.api_call_action wsr action params w = (Raise e, w') →
  UnifiedApi.call_action (UnifiedApi.both wsr http) action params (log, w)
  = (Raise e, (log ++ [UnifiedApi.Wsr], w')).
Proof.
  intros He H. unfold UnifiedApi.call_action, UnifiedApi.attempt. simpl.
  rewrite H. by destruct e.
Qed.

End failover.

(** C1.  With both transports configured the persistent one is invoked
    first.  If it returns, that is the result and the HTTP transport is not
    invoked.  If it raises [ApiNotAvailable], the HTTP transport is invoked
    next and the call ends as that invocation ends (in particular with
    [ApiNotAvailable] when both raise it).  Any other exception of the
    persistent transport is the call's, and the HTTP transport is not
    invoked.  With neither transport configured the call raises
    [ApiNotAvailable]. *)
Theorem C1_unified_failover {W : Type} (wsr http : UnifiedApi.Api W)
    (action : string) (params : gmap string value)
    (log : list UnifiedApi.transport) (w : W) :
  (∀ r w',
     UnifiedApi.api_call_action wsr action params w = (Ok r, w') →
     UnifiedApi.call_action (UnifiedApi.both wsr http) action params (log, w)
     = (Ok r, (log ++ [UnifiedApi.Wsr], w')))
  ∧ (∀ w' o w'',
     UnifiedApi.api_call_action wsr action params w = (Raise ApiNotAvailable, w') →
     UnifiedApi.api_call_action http action params w' = (o, w'') →
     UnifiedApi.call_action (UnifiedApi.both wsr http) action params (log, w)
     = (o, (log ++ [UnifiedApi.Wsr; UnifiedApi.Http], w'')))
  ∧ (∀ e w',
     e ≠ ApiNotAvailable →
     UnifiedApi.api_call_action wsr action params w = (Raise e, w') →
     UnifiedApi.call_action (UnifiedApi.both wsr http) action params (log, w)
     = (Raise e, (log ++ [UnifiedApi.Wsr], w')))
  ∧ UnifiedApi.call_action UnifiedApi.neither action params (log, w)
    = (Raise ApiNotAvailable, (log, w)).
Proof.
  split; [|split; [|split]].
  - intros r w'. apply dispatch_wsr_ok.
  - intros w' o w''. apply dispatch_wsr_unavailable.
  - intros e w'. apply dispatch_wsr_other.
  - reflexivity.
Qed.

(** Three runs: the persistent transport answers; it is unavailable and
    the HTTP transport answers; it times out. *)
Lemma C1_unified_failover_witness :
  UnifiedApi.call_action (UnifiedApi.both Fixtures.wsr_up Fixtures.http_api)
    "get_status" ∅ ([], ())
  = (Ok (VInt 42), ([UnifiedApi.Wsr], ()))
  ∧ UnifiedApi.call_action (UnifiedApi.both Fixtures.wsr_down Fixtures.http_api)
      "get_status" ∅ ([], ())
    = (Ok (VDict {[ "x"%string := VInt 1 ]}),
       ([UnifiedApi.Wsr; UnifiedApi.Http], ()))
  ∧ UnifiedApi.call_action (UnifiedApi.both Fixtures.wsr_timeout Fixtures.http_api)
      "get_status" ∅ ([], ())
    = (Raise (NetworkError "WebSocket API call timeout"),
       ([UnifiedApi.Wsr], ())).
Proof.
  split; [|split].
  - destruct (C1_unified_failover Fixtures.wsr_up Fixtures.http_api
                "get_status" ∅ [] ()) as (H & _).
    apply H. reflexivity.
  - destruct (C1_unified_failover Fixtures.wsr_down Fixtures.http_api
                "get_status" ∅ [] ()) as (_ & H & _).
    apply (H ()); reflexivity.
  - destruct (C1_unified_failover Fixtures.wsr_timeout Fixtures.http_api
                "get_status" ∅ [] ()) as (_ & _ & H & _).
    apply H; [discriminate | reflexivity].
Defined.

(** ** The sequence generator *)

Section generator.
Variable M : Z.
Hypothesis M_gt : 1 < M.

Lemma seq_next (g : _SequenceGenerator.t) :
  _SequenceGenerator._seq (snd (_SequenceGenerator.next M g))
  = (_SequenceGenerator._seq g + 1) mod M.
Proof. reflexivity. Qed.

Lemma seq_after (n : N) (g : _SequenceGenerator.t) :
  0 ≤ _SequenceGenerator._seq g < M →
  _SequenceGenerator._seq (_SequenceGenerator.after M n g)
  = (_SequenceGenerator._seq g + Z.of_N n) mod M.
Proof.
  intros Hg. unfold _SequenceGenerator.after.
  induction n as [|n IH] using N.peano_ind.
  - simpl. rewrite Z.add_0_r, Z.mod_small; done.
  - rewrite N.iter_succ, seq_next, IH, Zplus_mod_idemp_l. f_equal. lia.
Qed.

Lemma nth_id_formula (n : N) :
  _SequenceGenerator.nth_id M n = (1 + Z.of_N n) mod M.
Proof.
  unfold _SequenceGenerator.nth_id. cbn [fst _SequenceGenerator.next].
  rewrite seq_after; [done|]. simpl. lia.
Qed.

(** Fewer than [sys.maxsize] consecutive calls return distinct
    identifiers. *)
Lemma nth_id_distinct (j n : N) :
  (j < n)%N → Z.of_N n < M →
  _SequenceGenerator.nth_id M j ≠ _SequenceGenerator.nth_id M n.
Proof.
  intros Hjn Hn. rewrite !nth_id_formula.
  rewrite (Z.mod_small (1 + Z.of_N j)) by lia.
  destruct (decide (1 + Z.of_N n = M)) as [->|Hne].
  - rewrite Z.mod_same by lia. lia.
  - rewrite Z.mod_small by lia. lia.
Qed.

Lemma nth_id_wrap : _SequenceGenerator.nth_id M (Z.to_N (M - 1)) = 0.
Proof.
  rewrite nth_id_formula, Z2N.id by lia.
  replace (1 + (M - 1)) with M by lia.
  apply Z.mod_same. lia.
Qed.

End generator.

(** C4, as the code has it.  On every platform, call number [n + 1]
    returns [(1 + n) mod sys.maxsize]: every identifier lies in
    [0 .. sys.maxsize - 1], the identifier after [sys.maxsize - 1] is [0],
    and [1] follows only after that. *)
Theorem C4_sequence_wraps_to_zero (sys_maxsize : Z) :
  1 < sys_maxsize →
  (∀ n : N,
     _SequenceGenerator.nth_id sys_maxsize n = (1 + Z.of_N n) mod sys_maxsize
     ∧ 0 ≤ _SequenceGenerator.nth_id sys_maxsize n < sys_maxsize)
  ∧ _SequenceGenerator.nth_id sys_maxsize (Z.to_N (sys_maxsize - 2))
    = sys_maxsize - 1
  ∧ _SequenceGenerator.nth_id sys_maxsize (Z.to_N (sys_maxsize - 1)) = 0
  ∧ _SequenceGenerator.nth_id sys_maxsize (Z.to_N sys_maxsize) = 1.
Proof.
  intros HM. split; [|split; [|split]].
  - intros n. rewrite nth_id_formula by done. split; [done|].
    apply Z.mod_pos_bound. lia.
  - rewrite nth_id_formula, Z2N.id by lia.
    rewrite Z.mod_small; lia.
  - by apply nth_id_wrap.
  - rewrite nth_id_formula, Z2N.id by lia.
    rewrite Z.add_comm.
    replace (sys_maxsize + 1) with (1 + 1 * sys_maxsize) by lia.
    rewrite Z.mod_add by lia. apply Z.mod_small. lia.
Qed.

(** On a 64-bit build the call after the one that returned
    [2^63 - 2] returns 0. *)
Lemma C4_sequence_wraps_to_zero_witness :
  _SequenceGenerator.nth_id _SequenceGenerator.maxsize_64
    (Z.to_N (_SequenceGenerator.maxsize_64 - 2))
  = _SequenceGenerator.maxsize_64 - 1
  ∧ _SequenceGenerator.nth_id _SequenceGenerator.maxsize_64
      (Z.to_N (_SequenceGenerator.maxsize_64 - 1)) = 0.
Proof.
  destruct (C4_sequence_wraps_to_zero _SequenceGenerator.maxsize_64)
    as (_ & H1 & H2 & _); [reflexivity|].
  split; [exact H1 | exact H2].
Defined.

(** C4 as stated fails: on a 64-bit build the generator that has just
    returned [sys.maxsize - 1] returns [0] next, and that is call number
    [sys.maxsize] since import. *)
Lemma C4_next_returns_zero :
  fst (_SequenceGenerator.next _SequenceGenerator.maxsize_64
         {| _SequenceGenerator._seq := _SequenceGenerator.maxsize_64 - 1 |})
  = _SequenceGenerator.maxsize_64 - 1
  ∧ fst (_SequenceGenerator.next _SequenceGenerator.maxsize_64
           (snd (_SequenceGenerator.next _SequenceGenerator.maxsize_64
                   {| _SequenceGenerator._seq :=
                        _SequenceGenerator.maxsize_64 - 1 |}))) = 0
  ∧ _SequenceGenerator.nth_id _SequenceGenerator.maxsize_64
      (Z.to_N (_SequenceGenerator.maxsize_64 - 1)) = 0.
Proof.
  split; [reflexivity|]. split; [reflexivity|].
  by apply nth_id_wrap.
Qed.

(** ** Replies for unknown sequence numbers *)

(** A frame that does not decode to an object cannot be looked into. *)
Example add_non_object :
  ResultStore.add (VList [VInt 1]) ResultStore.empty
  = (Raise AttributeError, ResultStore.empty).
Proof. reflexivity. Qed.

(** [true] is an [int] for [isinstance], and stands for key 1. *)
Example add_bool_seq :
  ResultStore.echo_seq
    {[ "echo"%string := VDict {[ "seq"%string := VBool true ]} ]} = Some 1.
Proof. reflexivity. Qed.

(** C8.  A reply whose [echo.seq] is not registered changes nothing in
    the store and raises nothing. *)
Theorem C8_add_unregistered_noop (cls : ResultStore.t)
    (result : gmap string value) (id : Z) :
  ResultStore.echo_seq result = Some id →
  ResultStore._futures cls !! id = None →
  ResultStore.add (VDict result) cls = (Ok (), cls)
  ∧ ∀ s, Loop.store s = cls → Loop.step (Loop.EAdd (VDict result)) s = Some s.
Proof.
  intros He Hf.
  assert (ResultStore.add (VDict result) cls = (Ok (), cls)) as Hadd.
  { unfold ResultStore.add. by rewrite He, Hf. }
  split; [done|].
  intros [n st cs] Hs. simpl in Hs. subst st.
  unfold Loop.step. cbn [Loop.store Loop.now Loop.calls]. by rewrite Hadd.
Qed.

(** A late reply for sequence number 3 while only 5 is awaited. *)
Lemma C8_add_unregistered_noop_witness :
  ResultStore.add (VDict (Fixtures.reply 3))
    (snd (ResultStore.fetch_register 5 ResultStore.empty))
  = (Ok (), snd (ResultStore.fetch_register 5 ResultStore.empty)).
Proof.
  apply (C8_add_unregistered_noop
           (snd (ResultStore.fetch_register 5 ResultStore.empty))
           (Fixtures.reply 3) 3); reflexivity.
Defined.

(** ** Choosing the connection *)

Section selection.
Variable py_repr : value → string.
Implicit Types (self : WebSocketReverseApi.t) (ctx : WebSocketReverseApi.event_ws).

Lemma no_event_peer_available self ctx :
  WebSocketReverseApi.no_event_peer self ctx →
  WebSocketReverseApi._is_available self ctx = Ok false.
Proof.
  destruct ctx as [|[id|]]; simpl; try done.
  intros H. rewrite bool_decide_eq_false_2; [done|].
  rewrite H. by intros [? ?].
Qed.

Lemma select_by_context self id ws params :
  WebSocketReverseApi._clients self !! id = Some ws →
  WebSocketReverseApi.select py_repr self
    (WebSocketReverseApi.Bound (Some id)) params = Ok ws.
Proof.
  intros H. unfold WebSocketReverseApi.select. simpl.
  rewrite bool_decide_eq_true_2 by eauto. by rewrite H.
Qed.

Lemma select_by_self_id self ctx params :
  WebSocketReverseApi.no_event_peer self ctx →
  truthy (dict_get params "self_id") = true →
  WebSocketReverseApi.select py_repr self ctx params
  = match WebSocketReverseApi._clients self
            !! WebSocketReverseApi.py_str py_repr (dict_get params "self_id") with
    | Some ws => Ok ws
    | None => Raise ApiNotAvailable
    end.
Proof.
  intros Hctx Hid. unfold WebSocketReverseApi.select.
  rewrite (no_event_peer_available _ _ Hctx). simpl. by rewrite Hid.
Qed.

Lemma select_sole self ctx params k ws :
  WebSocketReverseApi.no_event_peer self ctx →
  truthy (dict_get params "self_id") = false →
  WebSocketReverseApi._clients self = {[ k := ws ]} →
  WebSocketReverseApi.select py_repr self ctx params = Ok ws.
Proof.
  intros Hctx Hid Hc. unfold WebSocketReverseApi.select.
  rewrite (no_event_peer_available _ _ Hctx). simpl. rewrite Hid, Hc.
  rewrite map_size_singleton, map_to_list_singleton. by simpl.
Qed.

Lemma select_none self ctx params :
  WebSocketReverseApi.no_event_peer self ctx →
  truthy (dict_get params "self_id") = false →
  size (WebSocketReverseApi._clients self) ≠ 1%nat →
  WebSocketReverseApi.select py_repr self ctx params = Raise ApiNotAvailable.
Proof.
  intros Hctx Hid Hc. unfold WebSocketReverseApi.select.
  rewrite (no_event_peer_available _ _ Hctx). simpl. rewrite Hid.
  by rewrite bool_decide_eq_false_2.
Qed.

Lemma select_no_header self params :
  WebSocketReverseApi.select py_repr self
    (WebSocketReverseApi.Bound None) params = Raise KeyError.
Proof. reflexivity. Qed.

Lemma event_peer_cases self ctx :
  ctx = WebSocketReverseApi.Bound None
  ∨ (∃ id ws, ctx = WebSocketReverseApi.Bound (Some id)
              ∧ WebSocketReverseApi._clients self !! id = Some ws)
  ∨ WebSocketReverseApi.no_event_peer self ctx.
Proof.
  destruct ctx as [|[id|]]; [by right; right| |by left].
  destruct (WebSocketReverseApi._clients self !! id) as [ws|] eqn:E.
  - right; left. by exists id, ws.
  - by right; right.
Qed.

Lemma clients_sole self :
  size (WebSocketReverseApi._clients self) = 1%nat →
  ∃ k ws, WebSocketReverseApi._clients self = {[ k := ws ]}.
Proof.
  intros H. rewrite <- length_map_to_list in H.
  destruct (map_to_list (WebSocketReverseApi._clients self))
    as [|[k ws] [|]] eqn:E; simpl in H; try done.
  exists k, ws.
  rewrite <- (list_to_map_to_list (WebSocketReverseApi._clients self)), E.
  simpl. by rewrite insert_empty.
Qed.

End selection.

(** C6, as the code has it, for every registry, context and parameters.
    An active context whose headers lack [X-Self-ID] makes the call raise
    [KeyError], whatever the parameters and the registry.  Otherwise
    (a) a context whose identity is registered selects that connection;
    failing that, (b) a [self_id] that is supplied and truthy selects the
    connection registered under [str(self_id)] and raises
    [ApiNotAvailable] when there is none, whatever else is registered;
    (c) without such a [self_id] the sole registered connection is
    selected; (d) without such a [self_id] and with no or several
    connections the call raises [ApiNotAvailable].  The last two
    conjuncts say that these cases are all there are. *)
Theorem C6_connection_selection (py_repr : value → string)
    (self : WebSocketReverseApi.t) (ctx : WebSocketReverseApi.event_ws)
    (params : gmap string value) :
  (ctx = WebSocketReverseApi.Bound None →
     WebSocketReverseApi.select py_repr self ctx params = Raise KeyError)
  ∧ (∀ id ws,
     ctx = WebSocketReverseApi.Bound (Some id) →
     WebSocketReverseApi._clients self !! id = Some ws →
     WebSocketReverseApi.select py_repr self ctx params = Ok ws)
  ∧ (WebSocketReverseApi.no_event_peer self ctx →
     truthy (dict_get params "self_id") = true →
     WebSocketReverseApi.select py_repr self ctx params
     = match WebSocketReverseApi._clients self
               !! WebSocketReverseApi.py_str py_repr (dict_get params "self_id") with
       | Some ws => Ok ws
       | None => Raise ApiNotAvailable
       end)
  ∧ (∀ k ws,
     WebSocketReverseApi.no_event_peer self ctx →
     truthy (dict_get params "self_id") = false →
     WebSocketReverseApi._clients self = {[ k := ws ]} →
     WebSocketReverseApi.select py_repr self ctx params = Ok ws)
  ∧ (WebSocketReverseApi.no_event_peer self ctx →
     truthy (dict_get params "self_id") = false →
     size (WebSocketReverseApi._clients self) ≠ 1%nat →
     WebSocketReverseApi.select py_repr self ctx params = Raise ApiNotAvailable)
  ∧ (ctx = WebSocketReverseApi.Bound None
     ∨ (∃ id ws, ctx = WebSocketReverseApi.Bound (Some id)
                 ∧ WebSocketReverseApi._clients self !! id = Some ws)
     ∨ WebSocketReverseApi.no_event_peer self ctx)
  ∧ (size (WebSocketReverseApi._clients self) = 1%nat →
     ∃ k ws, WebSocketReverseApi._clients self = {[ k := ws ]}).
Proof.
  split; [|split; [|split; [|split; [|split; [|split]]]]].
  - intros ->. apply select_no_header.
  - intros id ws ->. apply select_by_context.
  - apply select_by_self_id.
  - intros k ws. apply select_sole.
  - apply select_none.
  - apply event_peer_cases.
  - apply clients_sole.
Qed.

(** One connection, registered as 123.  Without an active context a call
    with [self_id=123] and a call without [self_id] both reach it, and so
    does a call with [self_id=0]; from a context without [X-Self-ID] the
    call with [self_id=123] raises [KeyError]. *)
Lemma C6_connection_selection_witness :
  WebSocketReverseApi.select Fixtures.repr
    {| WebSocketReverseApi._clients := {[ "123"%string := 7%nat ]} |}
    WebSocketReverseApi.Unbound {[ "self_id"%string := VInt 123 ]} = Ok 7%nat
  ∧ WebSocketReverseApi.select Fixtures.repr
      {| WebSocketReverseApi._clients := {[ "123"%string := 7%nat ]} |}
      WebSocketReverseApi.Unbound ∅ = Ok 7%nat
  ∧ WebSocketReverseApi.select Fixtures.repr
      {| WebSocketReverseApi._clients := {[ "123"%string := 7%nat ]} |}
      WebSocketReverseApi.Unbound {[ "self_id"%string := VInt 0 ]} = Ok 7%nat
  ∧ WebSocketReverseApi.select Fixtures.repr
      {| WebSocketReverseApi._clients := {[ "123"%string := 7%nat ]} |}
      (WebSocketReverseApi.Bound None) {[ "self_id"%string := VInt 123 ]}
    = Raise KeyError.
Proof.
  split; [|split; [|split]].
  - destruct (C6_connection_selection Fixtures.repr
                {| WebSocketReverseApi._clients := {[ "123"%string := 7%nat ]} |}
                WebSocketReverseApi.Unbound {[ "self_id"%string := VInt 123 ]})
      as (_ & _ & H & _).
    rewrite H; [reflexivity | exact I | reflexivity].
  - destruct (C6_connection_selection Fixtures.repr
                {| WebSocketReverseApi._clients := {[ "123"%string := 7%nat ]} |}
                WebSocketReverseApi.Unbound ∅) as (_ & _ & _ & H & _).
    apply (H "123"%string 7%nat); [exact I | reflexivity | reflexivity].
  - destruct (C6_connection_selection Fixtures.repr
                {| WebSocketReverseApi._clients := {[ "123"%string := 7%nat ]} |}
                WebSocketReverseApi.Unbound {[ "self_id"%string := VInt 0 ]})
      as (_ & _ & _ & H & _).
    apply (H "123"%string 7%nat); [exact I | reflexivity | reflexivity].
  - destruct (C6_connection_selection Fixtures.repr
                {| WebSocketReverseApi._clients := {[ "123"%string := 7%nat ]} |}
                (WebSocketReverseApi.Bound None)
                {[ "self_id"%string := VInt 123 ]}) as (H & _).
    apply H. reflexivity.
Defined.

(** C6 as stated fails: with the one connection 123 registered and
    [self_id=999] supplied, the rule of section 4.4 falls through to the
    sole connection, and the code raises [ApiNotAvailable]. *)
Lemma C6_unregistered_self_id_no_fallback :
  WebSocketReverseApi.select Fixtures.repr
    {| WebSocketReverseApi._clients := {[ "123"%string := 7%nat ]} |}
    WebSocketReverseApi.Unbound {[ "self_id"%string := VInt 999 ]}
  = Raise ApiNotAvailable
  ∧ WebSocketReverseApi.select_as_specified Fixtures.repr
      {| WebSocketReverseApi._clients := {[ "123"%string := 7%nat ]} |}
      WebSocketReverseApi.Unbound {[ "self_id"%string := VInt 999 ]}
    = Ok 7%nat.
Proof. split; reflexivity. Qed.

(** ** The result store under interleaving *)

Section store_facts.
Implicit Types (cls : ResultStore.t) (h : list ResultStore.future_state).
Local Open Scope nat_scope.

Lemma length_cancel f h : length (ResultStore.cancel f h) = length h.
Proof.
  unfold ResultStore.cancel.
  destruct (h !! f) as [[]|]; by rewrite ?length_insert.
Qed.

Lemma lookup_cancel_ne f i h : f ≠ i → ResultStore.cancel f h !! i = h !! i.
Proof.
  intros Hne. unfold ResultStore.cancel.
  destruct (h !! f) as [[]|]; by rewrite ?list_lookup_insert_ne.
Qed.

Lemma length_wait_for_effect f w h :
  length (ResultStore.wait_for_effect f w h) = length h.
Proof. destruct w; simpl; by rewrite ?length_cancel. Qed.

Lemma lookup_wait_for_effect_ne f i w h :
  f ≠ i → ResultStore.wait_for_effect f w h !! i = h !! i.
Proof. intros Hne. destruct w; simpl; by rewrite ?lookup_cancel_ne. Qed.

Lemma fetch_resume_futures seq f w cls :
  ResultStore._futures (snd (ResultStore.fetch_resume seq f w cls))
  = delete seq (ResultStore._futures cls).
Proof.
  unfold ResultStore.fetch_resume.
  destruct (ResultStore._futures cls !! seq) eqn:E; simpl; [done|].
  by rewrite delete_id.
Qed.

Lemma fetch_resume_heap seq f w cls :
  ResultStore.heap (snd (ResultStore.fetch_resume seq f w cls))
  = ResultStore.wait_for_effect f w (ResultStore.heap cls).
Proof.
  unfold ResultStore.fetch_resume.
  by destruct (ResultStore._futures cls !! seq).
Qed.

(** The slot of [seq] is gone when [fetch] returns or raises, whatever
    woke it up. *)
Lemma fetch_resume_removes seq f w cls :
  ResultStore._futures (snd (ResultStore.fetch_resume seq f w cls)) !! seq = None.
Proof. rewrite fetch_resume_futures. apply lookup_delete_eq. Qed.

Lemma fetch_resume_outcome seq f w cls :
  is_Some (ResultStore._futures cls !! seq) →
  fst (ResultStore.fetch_resume seq f w cls)
  = match w with
    | ResultStore.Fulfilled r => Ok r
    | ResultStore.TimedOut => Raise (NetworkError "WebSocket API call timeout")
    | ResultStore.TaskCancelled => Raise CancelledError
    end.
Proof.
  intros [x Hx]. unfold ResultStore.fetch_resume. rewrite Hx.
  by destruct w.
Qed.

Lemma fetch_resume_KeyError seq f w cls :
  ResultStore._futures cls !! seq = None →
  fst (ResultStore.fetch_resume seq f w cls) = Raise KeyError.
Proof. intros Hx. unfold ResultStore.fetch_resume. by rewrite Hx. Qed.

Lemma add_futures result cls :
  ResultStore._futures (snd (ResultStore.add result cls))
  = ResultStore._futures cls.
Proof.
  unfold ResultStore.add. destruct result; try done.
  destruct (ResultStore.echo_seq d); [|done].
  destruct (ResultStore._futures cls !! z); [|done].
  by destruct (ResultStore.set_result _ _ _).
Qed.

Lemma set_result_length f r h h' :
  ResultStore.set_result f r h = Ok h' → length h' = length h.
Proof.
  unfold ResultStore.set_result.
  destruct (h !! f) as [[]|]; intros [=]; subst. by rewrite length_insert.
Qed.

Lemma set_result_lookup_ne f i r h h' :
  ResultStore.set_result f r h = Ok h' → f ≠ i → h' !! i = h !! i.
Proof.
  unfold ResultStore.set_result.
  destruct (h !! f) as [[]|]; intros [=] Hne; subst.
  by rewrite list_lookup_insert_ne.
Qed.

Lemma add_heap_length result cls :
  length (ResultStore.heap (snd (ResultStore.add result cls)))
  = length (ResultStore.heap cls).
Proof.
  unfold ResultStore.add. destruct result; try done.
  destruct (ResultStore.echo_seq d); [|done].
  destruct (ResultStore._futures cls !! z); [|done].
  destruct (ResultStore.set_result _ _ _) eqn:E; [|done].
  simpl. by eapply set_result_length.
Qed.

(** A reply changes at most the future that [_futures] holds for its
    sequence number. *)
Lemma add_heap_lookup result cls i :
  (∀ d k, result = VDict d → ResultStore.echo_seq d = Some k →
          ResultStore._futures cls !! k ≠ Some i) →
  ResultStore.heap (snd (ResultStore.add result cls)) !! i
  = ResultStore.heap cls !! i.
Proof.
  intros Hi. unfold ResultStore.add. destruct result; try done.
  destruct (ResultStore.echo_seq d) as [k|] eqn:Ek; [|done].
  destruct (ResultStore._futures cls !! k) as [f|] eqn:Ef; [|done].
  destruct (ResultStore.set_result _ _ _) eqn:E; [|done].
  simpl. eapply set_result_lookup_ne; [done|].
  intros ->. by eapply Hi.
Qed.

(** A reply to a future that is no longer pending is refused and leaves
    the store as it is. *)
Lemma add_not_pending d k f cls :
  ResultStore.echo_seq d = Some k →
  ResultStore._futures cls !! k = Some f →
  ResultStore.heap cls !! f ≠ Some ResultStore.Pending →
  ResultStore.add (VDict d) cls = (Raise InvalidStateError, cls).
Proof.
  intros Ek Ef Hp. unfold ResultStore.add, ResultStore.set_result.
  rewrite Ek, Ef. by destruct (ResultStore.heap cls !! f) as [[]|].
Qed.

Lemma add_pending d k f cls :
  ResultStore.echo_seq d = Some k →
  ResultStore._futures cls !! k = Some f →
  ResultStore.heap cls !! f = Some ResultStore.Pending →
  ResultStore.add (VDict d) cls
  = (Ok (), {| ResultStore._futures := ResultStore._futures cls;
               ResultStore.heap :=
                 <[f := ResultStore.Finished (VDict d)]> (ResultStore.heap cls) |}).
Proof.
  intros Ek Ef Hp. unfold ResultStore.add, ResultStore.set_result.
  by rewrite Ek, Ef, Hp.
Qed.

End store_facts.

Section loop_facts.
Implicit Types (s : Loop.t) (c : Loop.call) (e : Loop.event).
Local Open Scope nat_scope.

Lemma leave_store i c w s :
  Loop.store (Loop.leave i c w s)
  = snd (ResultStore.fetch_resume (Loop.c_seq c) (Loop.c_future c) w (Loop.store s)).
Proof. unfold Loop.leave. by destruct (ResultStore.fetch_resume _ _ _ _). Qed.

Lemma leave_calls i c w s :
  Loop.calls (Loop.leave i c w s)
  = <[i := {| Loop.c_seq := Loop.c_seq c; Loop.c_future := Loop.c_future c;
              Loop.c_deadline := Loop.c_deadline c;
              Loop.c_status :=
                Loop.Exited (fst (ResultStore.fetch_resume (Loop.c_seq c)
                                    (Loop.c_future c) w (Loop.store s))) |}]>
      (Loop.calls s).
Proof. unfold Loop.leave. by destruct (ResultStore.fetch_resume _ _ _ _). Qed.

Lemma is_waiting_true c : Loop.is_waiting c = true ↔ Loop.c_status c = Loop.Waiting.
Proof. unfold Loop.is_waiting. destruct (Loop.c_status c); naive_solver. Qed.

(** The three events that wake a call make it leave [fetch]. *)
Lemma step_wake_inv e s s' i :
  Loop.step e s = Some s' →
  Loop.targets i e = true →
  ∃ c w, Loop.calls s !! i = Some c ∧ Loop.c_status c = Loop.Waiting
         ∧ s' = Loop.leave i c w s.
Proof.
  intros Hstep Ht.
  destruct e as [k|r|j|j|j|d]; simpl in Ht; try done;
    apply bool_decide_eq_true in Ht; subst j; simpl in Hstep;
    destruct (Loop.calls s !! i) as [c|] eqn:Ec; try done.
  - destruct (Loop.is_waiting c) eqn:Ew; [|done].
    destruct (ResultStore.heap (Loop.store s) !! Loop.c_future c) as [[|r|]|];
      try done.
    injection Hstep as <-. exists c, (ResultStore.Fulfilled r).
    by rewrite <- is_waiting_true.
  - destruct (Loop.is_waiting c) eqn:Ew; [|done]. simpl in Hstep.
    destruct (Loop.c_deadline c <=? Loop.now s)%Z; [|done].
    destruct (ResultStore.heap (Loop.store s) !! Loop.c_future c) as [[|r|]|];
      try done.
    injection Hstep as <-. exists c, ResultStore.TimedOut.
    by rewrite <- is_waiting_true.
  - destruct (Loop.is_waiting c) eqn:Ew; [|done].
    injection Hstep as <-. exists c, ResultStore.TaskCancelled.
    by rewrite <- is_waiting_true.
Qed.

(** An event that does not wake call [i] leaves it as it is. *)
Lemma step_call_other e s s' i c :
  Loop.step e s = Some s' →
  Loop.targets i e = false →
  Loop.calls s !! i = Some c → Loop.calls s' !! i = Some c.
Proof.
  intros Hstep Ht Hc.
  assert (∀ j, Loop.targets j e = true → Loop.calls s' !! i = Some c) as Hwake.
  { intros j Hj.
    destruct (step_wake_inv _ _ _ j Hstep Hj) as (cj & w & _ & _ & ->).
    rewrite leave_calls, list_lookup_insert_ne; [done|].
    intros ->. congruence. }
  destruct e as [k|r|j|j|j|d];
    try (apply (Hwake j); simpl; by rewrite bool_decide_eq_true_2);
    simpl in Hstep.
  - unfold ResultStore.fetch_register in Hstep. simpl in Hstep.
    injection Hstep as <-. simpl.
    rewrite lookup_app_l; [done|]. by eapply lookup_lt_Some.
  - by injection Hstep as <-.
  - destruct (0 <=? d)%Z; [|done]. by injection Hstep as <-.
Qed.

Lemma wf_initial : Loop.wf Loop.initial.
Proof.
  split; [done|]. split.
  - intros i c Hi. by destruct i.
  - intros k f Hk. simpl in Hk. by rewrite lookup_empty in Hk.
Qed.

Lemma wf_leave i c w s :
  Loop.wf s → Loop.calls s !! i = Some c → Loop.wf (Loop.leave i c w s).
Proof.
  intros (Hlen & Hfut & Hown) Hc. unfold Loop.wf.
  rewrite leave_store, leave_calls, fetch_resume_futures, fetch_resume_heap.
  rewrite length_wait_for_effect, length_insert.
  split; [done|]. split.
  - intros j c' Hj.
    destruct (decide (i = j)) as [->|Hne].
    + rewrite list_lookup_insert_eq in Hj by (by eapply lookup_lt_Some).
      injection Hj as <-. simpl. by apply Hfut.
    + rewrite list_lookup_insert_ne in Hj by done. by apply Hfut.
  - intros k f Hk. apply lookup_delete_Some in Hk as [Hne Hk].
    destruct (Hown k f Hk) as (c' & Hc' & Hseq & Hw).
    exists c'. split; [|done].
    rewrite list_lookup_insert_ne; [done|].
    intros ->. rewrite Hc in Hc'. injection Hc' as ->. done.
Qed.

Lemma wf_step e s s' : Loop.wf s → Loop.step e s = Some s' → Loop.wf s'.
Proof.
  intros Hwf Hstep.
  destruct e as [k|r|j|j|j|d].
  - destruct Hwf as (Hlen & Hfut & Hown).
    simpl in Hstep. unfold ResultStore.fetch_register in Hstep.
    simpl in Hstep. injection Hstep as <-.
    split; [|split]; simpl.
    + rewrite !length_app. simpl. lia.
    + intros i c Hi. apply lookup_app_Some in Hi as [Hi|[Hge Hi]].
      * by apply Hfut.
      * destruct (i - length (Loop.calls s)) as [|n] eqn:En; [|done].
        injection Hi as <-. simpl. lia.
    + intros k' f Hk. destruct (decide (k = k')) as [->|Hne].
      * rewrite lookup_insert_eq in Hk. injection Hk as <-.
        rewrite Hlen, list_lookup_middle by done. eauto.
      * rewrite lookup_insert_ne in Hk by done.
        destruct (Hown k' f Hk) as (c & Hc & ?). exists c. split; [|done].
        rewrite lookup_app_l; [done|]. by eapply lookup_lt_Some.
  - destruct Hwf as (Hlen & Hfut & Hown).
    simpl in Hstep. injection Hstep as <-. unfold Loop.wf. simpl.
    by rewrite add_heap_length, add_futures.
  - destruct (step_wake_inv _ _ _ j Hstep) as (c & w & Hc & _ & ->);
      [simpl; by rewrite bool_decide_eq_true_2|]. by apply wf_leave.
  - destruct (step_wake_inv _ _ _ j Hstep) as (c & w & Hc & _ & ->);
      [simpl; by rewrite bool_decide_eq_true_2|]. by apply wf_leave.
  - destruct (step_wake_inv _ _ _ j Hstep) as (c & w & Hc & _ & ->);
      [simpl; by rewrite bool_decide_eq_true_2|]. by apply wf_leave.
  - simpl in Hstep. destruct (0 <=? d)%Z; [|done]. by injection Hstep as <-.
Qed.

Lemma wf_run evs s s' : Loop.wf s → Loop.run evs s = Some s' → Loop.wf s'.
Proof.
  revert s. induction evs as [|e evs IH]; intros s Hwf Hrun; simpl in Hrun.
  - by injection Hrun as <-.
  - destruct (Loop.step e s) as [s1|] eqn:E; [|done].
    eapply IH; [|done]. by eapply wf_step.
Qed.

Lemma reachable_wf s : Loop.reachable s → Loop.wf s.
Proof. intros [evs Hrun]. eapply wf_run; [apply wf_initial|done]. Qed.

Lemma run_app evs1 evs2 s :
  Loop.run (evs1 ++ evs2) s
  = match Loop.run evs1 s with
    | Some s1 => Loop.run evs2 s1
    | None => None
    end.
Proof.
  revert s. induction evs1 as [|e evs1 IH]; intros s; simpl; [done|].
  by destruct (Loop.step e s).
Qed.

Lemma reachable_run evs s s' :
  Loop.reachable s → Loop.run evs s = Some s' → Loop.reachable s'.
Proof.
  intros [evs0 H0] Hrun. exists (evs0 ++ evs). by rewrite run_app, H0.
Qed.

End loop_facts.

Section holding.
Implicit Types (s : Loop.t) (c : Loop.call) (e : Loop.event).
Local Open Scope nat_scope.

Lemma holds_fetch s seq :
  Loop.wf s → Loop.unheld seq s →
  ∃ s', Loop.step (Loop.EFetch seq) s = Some s'
        ∧ Loop.now s' = Loop.now s
        ∧ Loop.holds seq (length (Loop.calls s))
            (Loop.now s + ResultStore.wait_seconds)%Z ResultStore.Pending s'.
Proof.
  intros (Hlen & Hfut & Hown) Hun. eexists. split; [reflexivity|].
  split; [done|]. unfold Loop.holds. simpl. rewrite Hlen.
  split; [by apply list_lookup_middle|].
  split; [by rewrite lookup_insert_eq|].
  split; [rewrite <- Hlen; by apply list_lookup_middle|].
  intros j c Hj Hw Hseq.
  apply lookup_app_Some in Hj as [Hj|[Hge Hj]].
  - by destruct (Hun j c).
  - destruct (j - length (Loop.calls s)) as [|n] eqn:En; [lia|done].
Qed.

Lemma holds_leave seq i dl fs j c w s :
  Loop.wf s → Loop.holds seq i dl fs s →
  Loop.calls s !! j = Some c → Loop.c_status c = Loop.Waiting → j ≠ i →
  Loop.holds seq i dl fs (Loop.leave j c w s).
Proof.
  intros (Hlen & Hfut & Hown) (Hi & Hslot & Hheap & Huniq) Hj Hw Hne.
  assert (Loop.c_seq c ≠ seq) as Hseq by (intros E; by apply Hne, (Huniq j c)).
  unfold Loop.holds.
  rewrite leave_store, leave_calls, fetch_resume_futures, fetch_resume_heap.
  split; [by rewrite list_lookup_insert_ne|].
  split; [by rewrite lookup_delete_ne|].
  split.
  - rewrite lookup_wait_for_effect_ne; [done|]. by rewrite (Hfut j c).
  - intros j' c' Hj' Hw' Hs'.
    destruct (decide (j = j')) as [->|Hne'].
    + rewrite list_lookup_insert_eq in Hj' by (by eapply lookup_lt_Some).
      injection Hj' as <-. done.
    + rewrite list_lookup_insert_ne in Hj' by done. by eapply Huniq.
Qed.

(** While call [i] holds [seq], an event that neither fetches [seq] again
    nor wakes [i] leaves it holding; a reply for [seq] may pass once the
    future is no longer pending. *)
Lemma holds_step seq i dl fs replies e s s' :
  Loop.wf s → Loop.holds seq i dl fs s →
  (replies = true → fs ≠ ResultStore.Pending) →
  Loop.undisturbed seq i replies e →
  Loop.step e s = Some s' →
  Loop.holds seq i dl fs s'.
Proof.
  intros Hwf Hh Hrep (Hrf & Ht & Hrs) Hstep.
  assert (∀ j, Loop.targets j e = true → Loop.holds seq i dl fs s') as Hwake.
  { intros j Hj.
    destruct (step_wake_inv _ _ _ j Hstep Hj) as (c & w & Hc & Hw & ->).
    apply holds_leave; try done.
    intros ->. congruence. }
  pose proof Hwf as (Hlen & Hfut & Hown).
  pose proof Hh as (Hi & Hslot & Hheap & Huniq).
  destruct e as [k|r|j|j|j|d];
    try (apply (Hwake j); simpl; by rewrite bool_decide_eq_true_2).
  - simpl in Hrf. apply bool_decide_eq_false in Hrf.
    simpl in Hstep. unfold ResultStore.fetch_register in Hstep.
    simpl in Hstep. injection Hstep as <-. unfold Loop.holds. simpl.
    split; [rewrite lookup_app_l; [done|by eapply lookup_lt_Some]|].
    split; [by rewrite lookup_insert_ne|].
    split; [rewrite lookup_app_l; [done|by eapply lookup_lt_Some]|].
    intros j c Hj Hw Hseq.
    apply lookup_app_Some in Hj as [Hj|[Hge Hj]]; [by eapply Huniq|].
    destruct (j - length (Loop.calls s)) as [|n]; [|done].
    injection Hj as <-. simpl in Hseq. done.
  - simpl in Hstep. injection Hstep as <-. unfold Loop.holds. simpl.
    rewrite add_futures.
    split; [done|]. split; [done|]. split; [|done].
    destruct r as [| | | | |l|d];
      try (rewrite add_heap_lookup; [done|by intros ???]).
    destruct (ResultStore.echo_seq d) as [k|] eqn:Ek.
    2:{ rewrite add_heap_lookup; [done|]. intros d' k' [= <-]. congruence. }
    destruct (decide (k = seq)) as [->|Hk].
    + destruct replies.
      * erewrite add_not_pending; [done|done|done|].
        rewrite Hheap. intros [= E]. by apply Hrep.
      * specialize (Hrs eq_refl). simpl in Hrs.
        by rewrite bool_decide_eq_true_2 in Hrs.
    + rewrite add_heap_lookup; [done|].
      intros d' k' [= <-] Ek' Hki. rewrite Ek in Ek'. injection Ek' as <-.
      destruct (Hown k i Hki) as (c & Hc & Hseq & _).
      rewrite Hi in Hc. injection Hc as <-. simpl in Hseq. done.
  - simpl in Hstep. destruct (0 <=? d)%Z; [|done]. by injection Hstep as <-.
Qed.

Lemma holds_run seq i dl fs replies evs s s' :
  Loop.wf s → Loop.holds seq i dl fs s →
  (replies = true → fs ≠ ResultStore.Pending) →
  Forall (Loop.undisturbed seq i replies) evs →
  Loop.run evs s = Some s' →
  Loop.holds seq i dl fs s'.
Proof.
  intros Hwf Hh Hrep Hevs. revert s Hwf Hh.
  induction Hevs as [|e evs He Hevs IH]; intros s Hwf Hh Hrun; simpl in Hrun.
  - by injection Hrun as <-.
  - destruct (Loop.step e s) as [s1|] eqn:E; [|done].
    apply (IH s1); [by eapply wf_step|by eapply holds_step|done].
Qed.

(** A reply for [seq] fulfils the pending future of the call that holds
    [seq]. *)
Lemma holds_add seq i dl d s :
  Loop.holds seq i dl ResultStore.Pending s →
  ResultStore.echo_seq d = Some seq →
  ∃ s', Loop.step (Loop.EAdd (VDict d)) s = Some s'
        ∧ Loop.holds seq i dl (ResultStore.Finished (VDict d)) s'.
Proof.
  intros (Hi & Hslot & Hheap & Huniq) Hd. eexists. split; [reflexivity|].
  unfold Loop.holds. cbn [Loop.store Loop.calls].
  rewrite (add_pending d seq i) by done. simpl.
  split; [done|]. split; [done|]. split; [|done].
  apply list_lookup_insert_eq. by eapply lookup_lt_Some.
Qed.

(** The holder's timer fires: [NetworkError], and the slot is gone. *)
Lemma holds_expire seq i dl s :
  Loop.holds seq i dl ResultStore.Pending s →
  (dl ≤ Loop.now s)%Z →
  ∃ s', Loop.step (Loop.EExpire i) s = Some s'
        ∧ Loop.status_of i s'
          = Some (Loop.Exited (Raise (NetworkError "WebSocket API call timeout")))
        ∧ ResultStore._futures (Loop.store s') !! seq = None.
Proof.
  intros (Hi & Hslot & Hheap & Huniq) Hdl. eexists. split.
  - simpl. rewrite Hi. simpl. rewrite Hheap.
    destruct (dl <=? Loop.now s)%Z eqn:E; [reflexivity|lia].
  - unfold Loop.status_of. rewrite leave_store, leave_calls. simpl.
    rewrite list_lookup_insert_eq by (by eapply lookup_lt_Some).
    rewrite fetch_resume_outcome by eauto.
    split; [done|]. apply fetch_resume_removes.
Qed.

(** The holder wakes up with its result: it returns it, and the slot is
    gone. *)
Lemma holds_resume seq i dl r s :
  Loop.holds seq i dl (ResultStore.Finished r) s →
  ∃ s', Loop.step (Loop.EResume i) s = Some s'
        ∧ Loop.status_of i s' = Some (Loop.Exited (Ok r))
        ∧ ResultStore._futures (Loop.store s') !! seq = None.
Proof.
  intros (Hi & Hslot & Hheap & Huniq). eexists. split.
  - simpl. rewrite Hi. simpl. rewrite Hheap. reflexivity.
  - unfold Loop.status_of. rewrite leave_store, leave_calls. simpl.
    rewrite list_lookup_insert_eq by (by eapply lookup_lt_Some).
    rewrite fetch_resume_outcome by eauto.
    split; [done|]. apply fetch_resume_removes.
Qed.

End holding.

(** ** Leaving [fetch] *)

(** C2.  Whatever makes a waiting call leave [fetch] - its result, its
    timeout or its cancellation - the slot of its sequence number is not
    in the store afterwards; this holds of [fetch]'s [finally] clause for
    every wake-up and every store.  And in every reachable state each slot
    of the store belongs to a call that is still waiting for it: no slot
    outlives its waiter. *)
Theorem C2_no_leaked_slot :
  (∀ e s s' i c,
     Loop.step e s = Some s' →
     Loop.calls s !! i = Some c →
     Loop.c_status c = Loop.Waiting →
     (∃ o, Loop.status_of i s' = Some (Loop.Exited o)) →
     ResultStore._futures (Loop.store s') !! Loop.c_seq c = None)
  ∧ (∀ seq future w cls,
     ResultStore._futures (snd (ResultStore.fetch_resume seq future w cls)) !! seq
     = None)
  ∧ (∀ s k f,
     Loop.reachable s →
     ResultStore._futures (Loop.store s) !! k = Some f →
     ∃ c, Loop.calls s !! f = Some c ∧ Loop.c_seq c = k
          ∧ Loop.c_status c = Loop.Waiting).
Proof.
  split; [|split].
  - intros e s s' i c Hstep Hc Hw [o Ho].
    destruct (Loop.targets i e) eqn:Ht.
    + destruct (step_wake_inv _ _ _ i Hstep Ht) as (c' & w & Hc' & _ & ->).
      rewrite Hc in Hc'. injection Hc' as <-.
      rewrite leave_store. apply fetch_resume_removes.
    + unfold Loop.status_of in Ho.
      rewrite (step_call_other _ _ _ _ _ Hstep Ht Hc) in Ho.
      simpl in Ho. congruence.
  - intros. apply fetch_resume_removes.
  - intros s k f Hr Hk. apply reachable_wf in Hr as (_ & _ & Hown).
    by apply Hown.
Qed.

(** A call waits on 5 and is cancelled: 5 is gone. *)
Lemma C2_no_leaked_slot_witness :
  Loop.step (Loop.EFetch 5) Loop.initial = Some Fixtures.one_waiting
  ∧ ∃ s',
      Loop.step (Loop.ECancel 0) Fixtures.one_waiting = Some s'
      ∧ Loop.status_of 0 s' = Some (Loop.Exited (Raise CancelledError))
      ∧ ResultStore._futures (Loop.store s') !! 5 = None.
Proof.
  split; [vm_compute; reflexivity|].
  exists (Loop.leave 0 Fixtures.waiting_on_5 ResultStore.TaskCancelled
            Fixtures.one_waiting).
  split; [reflexivity|]. split; [reflexivity|].
  destruct C2_no_leaked_slot as (H & _).
  apply (H (Loop.ECancel 0) Fixtures.one_waiting _ 0%nat Fixtures.waiting_on_5);
    [reflexivity | reflexivity | reflexivity | eexists; reflexivity].
Defined.

(** ** The timeout *)

(** C3.  A call of [fetch(seq)] made when no pending call holds [seq]
    becomes call number [length (calls s0)].  While no reply for [seq]
    arrives, [seq] is not fetched again and the call is not cancelled, its
    timer cannot fire before 60 seconds have passed, and once they have
    passed it fires: the call raises [NetworkError] and [seq] is no longer
    in the store. *)
Theorem C3_timeout_raises_network_error (s0 : Loop.t) (seq : Z)
    (evs : list Loop.event) (s1 : Loop.t) :
  Loop.reachable s0 →
  Loop.unheld seq s0 →
  Forall (Loop.undisturbed seq (length (Loop.calls s0)) false) evs →
  Loop.run (Loop.EFetch seq :: evs) s0 = Some s1 →
  (Loop.now s1 < Loop.now s0 + 60 →
     Loop.step (Loop.EExpire (length (Loop.calls s0))) s1 = None)
  ∧ (Loop.now s0 + 60 ≤ Loop.now s1 →
     ∃ s2, Loop.step (Loop.EExpire (length (Loop.calls s0))) s1 = Some s2
           ∧ Loop.status_of (length (Loop.calls s0)) s2
             = Some (Loop.Exited (Raise (NetworkError "WebSocket API call timeout")))
           ∧ ResultStore._futures (Loop.store s2) !! seq = None).
Proof.
  intros Hr Hun Hevs Hrun.
  apply reachable_wf in Hr as Hwf.
  destruct (holds_fetch s0 seq Hwf Hun) as (s' & Hstep & Hnow & Hh).
  cbn [Loop.run] in Hrun. rewrite Hstep in Hrun.
  assert (Loop.holds seq (length (Loop.calls s0))
            (Loop.now s0 + ResultStore.wait_seconds) ResultStore.Pending s1) as Hh1.
  { apply (holds_run seq _ _ _ false evs s' s1);
      [by eapply wf_step | done | done | done | done]. }
  split.
  - intros Hlt. destruct Hh1 as (Hi & _). simpl. rewrite Hi. simpl.
    unfold ResultStore.wait_seconds.
    destruct (Loop.now s0 + 60 <=? Loop.now s1) eqn:E; [lia|done].
  - intros Hge. by apply (holds_expire seq _ _ s1 Hh1).
Qed.

(** From the start: a wait on 5, a stray reply for 3, a wait on 6, and 60
    seconds. *)
Lemma C3_timeout_raises_network_error_witness :
  Loop.run [Loop.EFetch 5; Loop.EAdd (VDict (Fixtures.reply 3));
            Loop.EFetch 6; Loop.EAdvance 60] Loop.initial
  = Some Fixtures.two_waiting
  ∧ ∃ s2,
      Loop.step (Loop.EExpire 0) Fixtures.two_waiting = Some s2
      ∧ Loop.status_of 0 s2
        = Some (Loop.Exited (Raise (NetworkError "WebSocket API call timeout")))
      ∧ ResultStore._futures (Loop.store s2) !! 5 = None.
Proof.
  split; [vm_compute; reflexivity|].
  destruct (C3_timeout_raises_network_error Loop.initial 5
              [Loop.EAdd (VDict (Fixtures.reply 3)); Loop.EFetch 6; Loop.EAdvance 60]
              Fixtures.two_waiting) as (_ & H).
  - by exists [].
  - intros j c Hj. by destruct j.
  - repeat constructor.
  - vm_compute. reflexivity.
  - apply H. simpl. lia.
Defined.

(** ** Calls over the persistent connection *)

Lemma call_action_send_inv py_repr dumps maxsize self ctx action params w seq w' :
  WebSocketReverseApi.call_action_send py_repr dumps maxsize self ctx action
    params w = (Ok seq, w') →
  ∃ ws, WebSocketReverseApi.select py_repr self ctx params = Ok ws
        ∧ seq = fst (_SequenceGenerator.next maxsize (WebSocketReverseApi.gen w))
        ∧ w' = {| WebSocketReverseApi.gen :=
                    snd (_SequenceGenerator.next maxsize
                           (WebSocketReverseApi.gen w));
                  WebSocketReverseApi.sent :=
                    WebSocketReverseApi.sent w
                    ++ [(ws, dumps (WebSocketReverseApi.frame action params seq))] |}.
Proof.
  unfold WebSocketReverseApi.call_action_send.
  destruct (WebSocketReverseApi.select py_repr self ctx params) as [ws|e];
    [|done].
  simpl. intros [= <- <-]. by exists ws.
Qed.

(** A peer that copies the frame's [echo] into its reply addresses the
    call that sent the frame. *)
Lemma echo_seq_of_frame_echo (reply : gmap string value) (seq : Z) :
  ResultStore.echo_seq
    (<[ "echo"%string := VDict {[ "seq"%string := VInt seq ]} ]> reply)
  = Some seq.
Proof.
  unfold ResultStore.echo_seq, dict_get. rewrite lookup_insert_eq. simpl.
  by rewrite lookup_singleton_eq.
Qed.

(** C7.  When a call gets as far as sending, its sequence number is the one
    [_SequenceGenerator.next] returned at that moment, and the frame handed
    to the selected connection is the encoding of
    [{action, params, echo: {seq}}].  When [fetch] is then entered with that
    number while no other pending call holds it, and a reply carrying the
    number arrives before the call is woken otherwise, the call wakes up
    with exactly that reply, and what the action call returns or raises is
    [_handle_api_result] of it. *)
Theorem C7_frame_and_reply (py_repr dumps : value → string) (sys_maxsize : Z)
    (self : WebSocketReverseApi.t) (ctx : WebSocketReverseApi.event_ws)
    (action : string) (params : gmap string value)
    (w w' : WebSocketReverseApi.wire) (seq : Z) :
  WebSocketReverseApi.call_action_send py_repr dumps sys_maxsize self ctx action
    params w = (Ok seq, w') →
  (seq = fst (_SequenceGenerator.next sys_maxsize (WebSocketReverseApi.gen w))
   ∧ ∃ ws,
       WebSocketReverseApi.select py_repr self ctx params = Ok ws
       ∧ WebSocketReverseApi.sent w'
         = WebSocketReverseApi.sent w
           ++ [(ws, dumps (VDict {[ "action"%string := VStr action;
                                    "params"%string := VDict params;
                                    "echo"%string :=
                                      VDict {[ "seq"%string := VInt seq ]} ]}))])
  ∧ ∀ s0 evs1 reply evs2 s1,
      Loop.reachable s0 →
      Loop.unheld seq s0 →
      ResultStore.echo_seq reply = Some seq →
      Forall (Loop.undisturbed seq (length (Loop.calls s0)) false) evs1 →
      Forall (Loop.undisturbed seq (length (Loop.calls s0)) true) evs2 →
      Loop.run (Loop.EFetch seq :: evs1 ++ Loop.EAdd (VDict reply) :: evs2) s0
      = Some s1 →
      ∃ s2 fetched,
        Loop.step (Loop.EResume (length (Loop.calls s0))) s1 = Some s2
        ∧ Loop.status_of (length (Loop.calls s0)) s2 = Some (Loop.Exited fetched)
        ∧ fetched = Ok (VDict reply)
        ∧ WebSocketReverseApi.call_action_result fetched
          = _handle_api_result (VDict reply).
Proof.
  intros Hsend.
  destruct (call_action_send_inv _ _ _ _ _ _ _ _ _ _ Hsend)
    as (ws & Hsel & Hseq & ->).
  split.
  - split; [done|]. by exists ws.
  - intros s0 evs1 reply evs2 s1 Hr Hun Hreply Hevs1 Hevs2 Hrun.
    apply reachable_wf in Hr as Hwf.
    destruct (holds_fetch s0 seq Hwf Hun) as (sa & Hstep & _ & Hh).
    cbn [Loop.run] in Hrun. rewrite Hstep, run_app in Hrun.
    destruct (Loop.run evs1 sa) as [sb|] eqn:Hrun1; [|done].
    assert (Loop.wf sa) as Hwfa by (by eapply wf_step).
    assert (Loop.wf sb) as Hwfb by (by eapply wf_run).
    assert (Loop.holds seq (length (Loop.calls s0))
              (Loop.now s0 + ResultStore.wait_seconds) ResultStore.Pending sb) as Hhb.
    { by apply (holds_run seq _ _ _ false evs1 sa sb). }
    destruct (holds_add _ _ _ reply sb Hhb Hreply) as (sc & Hadd & Hhc).
    cbn [Loop.run] in Hrun. rewrite Hadd in Hrun.
    assert (Loop.holds seq (length (Loop.calls s0))
              (Loop.now s0 + ResultStore.wait_seconds)
              (ResultStore.Finished (VDict reply)) s1) as Hh1.
    { apply (holds_run seq _ _ _ true evs2 sc s1);
        [by eapply wf_step | done | done | done | done]. }
    destruct (holds_resume _ _ _ _ _ Hh1) as (s2 & Hres & Hst & _).
    exists s2, (Ok (VDict reply)). done.
Qed.

(** [send_msg] with [message=hi] is sent with sequence number 1; two
    seconds later the reply for 1 arrives and the call returns its data. *)
Lemma C7_frame_and_reply_witness :
  WebSocketReverseApi.call_action_send Fixtures.repr Fixtures.dumps
    _SequenceGenerator.maxsize_64
    Fixtures.one_client WebSocketReverseApi.Unbound "send_msg"
    {[ "message"%string := VStr "hi" ]} Fixtures.fresh_wire
  = (Ok 1, {| WebSocketReverseApi.gen := {| _SequenceGenerator._seq := 2 |};
              WebSocketReverseApi.sent := [(7%nat, "<json>"%string)] |})
  ∧ ∃ s1 s2,
      Loop.run [Loop.EFetch 1; Loop.EAdvance 2; Loop.EAdd (VDict (Fixtures.reply 1))]
        Loop.initial = Some s1
      ∧ Loop.step (Loop.EResume 0) s1 = Some s2
      ∧ Loop.status_of 0 s2 = Some (Loop.Exited (Ok (VDict (Fixtures.reply 1))))
      ∧ WebSocketReverseApi.call_action_result (Ok (VDict (Fixtures.reply 1)))
        = Ok (VInt 7).
Proof.
  split; [reflexivity|].
  destruct (C7_frame_and_reply Fixtures.repr Fixtures.dumps
              _SequenceGenerator.maxsize_64 Fixtures.one_client
              WebSocketReverseApi.Unbound "send_msg"
              {[ "message"%string := VStr "hi" ]} Fixtures.fresh_wire
              {| WebSocketReverseApi.gen := {| _SequenceGenerator._seq := 2 |};
                 WebSocketReverseApi.sent := [(7%nat, "<json>"%string)] |} 1)
    as (_ & H); [reflexivity|].
  destruct (Loop.run [Loop.EFetch 1; Loop.EAdvance 2;
                      Loop.EAdd (VDict (Fixtures.reply 1))] Loop.initial)
    as [s1|] eqn:Hrun; [|vm_compute in Hrun; discriminate].
  destruct (H Loop.initial [Loop.EAdvance 2] (Fixtures.reply 1) [] s1)
    as (s2 & fetched & H1 & H2 & -> & H4).
  - by exists [].
  - intros j c Hj. by destruct j.
  - reflexivity.
  - repeat constructor.
  - constructor.
  - exact Hrun.
  - exists s1, s2. split; [done|]. split; [done|]. split; [done|]. reflexivity.
Defined.

(** ** Fetching a sequence number that is already awaited *)

(** C9, as the code has it.  [fetch] on a sequence number that already has
    a slot does not fail: the new call waits like any other, the slot now
    holds its fresh pending future, and the earlier call is left waiting on
    a future that the store no longer knows. *)
Theorem C9_refetch_replaces_slot (s : Loop.t) (seq : Z) (f : nat) :
  Loop.reachable s →
  ResultStore._futures (Loop.store s) !! seq = Some f →
  ∃ s',
    Loop.step (Loop.EFetch seq) s = Some s'
    ∧ Loop.status_of (length (Loop.calls s)) s' = Some Loop.Waiting
    ∧ ResultStore._futures (Loop.store s') !! seq = Some (length (Loop.calls s))
    ∧ ResultStore.heap (Loop.store s') !! length (Loop.calls s)
      = Some ResultStore.Pending
    ∧ length (Loop.calls s) ≠ f
    ∧ Loop.status_of f s' = Some Loop.Waiting
    ∧ ResultStore.heap (Loop.store s') !! f = ResultStore.heap (Loop.store s) !! f.
Proof.
  intros Hr Hf. apply reachable_wf in Hr as (Hlen & Hfut & Hown).
  destruct (Hown seq f Hf) as (c & Hc & Hseq & Hw).
  pose proof (lookup_lt_Some _ _ _ Hc) as Hlt.
  eexists. split; [reflexivity|]. unfold Loop.status_of. simpl.
  rewrite Hlen.
  split; [by rewrite list_lookup_middle|].
  split; [by rewrite lookup_insert_eq|].
  split; [rewrite <- Hlen; by rewrite list_lookup_middle|].
  split; [lia|].
  split; [rewrite lookup_app_l by done; by rewrite Hc; simpl; f_equal|].
  rewrite lookup_app_l; [done|lia].
Qed.

Lemma C9_refetch_replaces_slot_witness :
  ∃ s',
    Loop.step (Loop.EFetch 5) Fixtures.one_waiting = Some s'
    ∧ Loop.status_of 1 s' = Some Loop.Waiting
    ∧ ResultStore._futures (Loop.store s') !! 5 = Some 1%nat
    ∧ Loop.status_of 0 s' = Some Loop.Waiting.
Proof.
  destruct (C9_refetch_replaces_slot Fixtures.one_waiting 5 0)
    as (s' & H1 & H2 & H3 & _ & _ & H6 & _).
  - exists [Loop.EFetch 5]. vm_compute. reflexivity.
  - reflexivity.
  - exists s'. done.
Defined.

(** C9 as stated fails: a second [fetch(5)] while the first is pending is
    accepted, and the slot is replaced. *)
Lemma C9_second_fetch_accepted :
  ∃ s,
    Loop.run [Loop.EFetch 5; Loop.EFetch 5] Loop.initial = Some s
    ∧ Loop.status_of 0 s = Some Loop.Waiting
    ∧ Loop.status_of 1 s = Some Loop.Waiting
    ∧ ResultStore._futures (Loop.store s) !! 5 = Some 1%nat.
Proof. eexists. split; [vm_compute; reflexivity|]. vm_compute. done. Qed.

(** What follows from two overlapping calls on one number: the one that
    leaves first removes the slot, and the [del] of the other raises
    [KeyError]. *)
Example overlapping_fetches_KeyError :
  ∃ s,
    Loop.run [Loop.EFetch 5; Loop.EFetch 5; Loop.EAdvance 60;
              Loop.EExpire 0; Loop.EExpire 1] Loop.initial = Some s
    ∧ Loop.status_of 0 s
      = Some (Loop.Exited (Raise (NetworkError "WebSocket API call timeout")))
    ∧ Loop.status_of 1 s = Some (Loop.Exited (Raise KeyError))
    ∧ ResultStore._futures (Loop.store s) = ∅.
Proof. eexists. split; [vm_compute; reflexivity|]. vm_compute. done. Qed.

Example rstrip_example :
  HttpApi.rstrip_slash "http://127.0.0.1:5700//" = "http://127.0.0.1:5700"%string.
Proof. reflexivity. Qed.

(** A root that is only slashes leaves the transport unavailable. *)
Example slash_root_unavailable :
  HttpApi._is_available (HttpApi.__init__ (Some "/"%string) None) = false.
Proof. reflexivity. Qed.

(* ===================================================================== *)
(** * Further properties of the module *)
(* ===================================================================== *)

(** ** Result extraction and the HTTP transport *)

Lemma eq_str_true (v : value) (s : string) : eq_str v s = true ↔ v = VStr s.
Proof.
  destruct v; simpl; try (split; [done|congruence]).
  rewrite bool_decide_eq_true. split; congruence.
Qed.

Lemma handle_raises_inv (v : value) (e : exn) :
  _handle_api_result v = Raise e →
  ∃ d, v = VDict d ∧ dict_get d "status" = VStr "failed"
       ∧ e = ActionFailed (dict_get d "retcode").
Proof.
  destruct v as [| | | | | |d]; simpl; try done.
  destruct (eq_str (dict_get d "status") "failed") eqn:E; [|done].
  intros [= <-]. exists d. by apply eq_str_true in E.
Qed.

(** X1.  [_handle_api_result] raises exactly when it is given a dict whose
    [status] is the string ["failed"], and then what it raises is
    [ActionFailed] with that dict's [retcode] ([None] when there is none);
    on every other value it returns. *)
Theorem X1_handle_raises_iff (v : value) (e : exn) :
  _handle_api_result v = Raise e
  ↔ ∃ d, v = VDict d ∧ dict_get d "status" = VStr "failed"
         ∧ e = ActionFailed (dict_get d "retcode").
Proof.
  split.
  - apply handle_raises_inv.
  - intros (d & -> & Hs & ->). by apply handle_failed.
Qed.

Lemma handle_never_unavailable (v : value) :
  _handle_api_result v ≠ Raise ApiNotAvailable.
Proof.
  destruct v as [| | | | | |d]; simpl; try done.
  by destruct (eq_str (dict_get d "status") "failed").
Qed.

(** X2.  The HTTP transport raises [ApiNotAvailable] exactly when it has no
    root URL: whatever the network answers and whatever the decoder makes
    of the body, an available transport fails in some other way or
    returns, so the dispatcher never mistakes a failed request for a
    missing transport. *)
Theorem X2_http_unavailable_iff net loads (self : HttpApi.t) (action : string)
    (params : gmap string value) :
  HttpApi.call_action net loads self action params = Raise ApiNotAvailable
  ↔ HttpApi._is_available self = false.
Proof.
  unfold HttpApi.call_action.
  destruct (HttpApi._is_available self); simpl; [|done].
  split; [|done].
  destruct (net _) as [| |cls|status [body|]|status cls]; try done;
    destruct ((200 <=? status) && (status <? 300)); try done.
  destruct (loads body) as [v| |cls]; [|done|done].
  intros H. by apply handle_never_unavailable in H.
Qed.

(** X3.  Every exception that leaves the HTTP transport, with its cause.
    The module's own: [ApiNotAvailable] without a root URL;
    [NetworkError] for an invalid URL, for a client error of the request
    and for a client error while reading a 2xx body; [HttpFailed] with the
    status for a status outside 200..299, the body unread; [ActionFailed]
    for a 2xx object with status ["failed"].  Any other exception is one
    that the request, the reading of a 2xx body or the decoder raised and
    that no [except] clause catches - the decoder's [ValueError], or an
    exception of another class such as a timeout - and it leaves the call
    as it was raised. *)
Theorem X3_http_failures net loads (self : HttpApi.t) (action : string)
    (params : gmap string value) (e : exn) :
  HttpApi.call_action net loads self action params = Raise e →
  (e = ApiNotAvailable ∧ HttpApi._is_available self = false)
  ∨ HttpApi._is_available self = true
    ∧ ((e = NetworkError "API root url invalid"
        ∧ net (HttpApi.build_request self action params) = HttpApi.RaisesInvalidURL)
       ∨ (e = NetworkError "HTTP request failed with client error"
          ∧ (net (HttpApi.build_request self action params)
             = HttpApi.RaisesClientError
             ∨ ∃ status,
                 net (HttpApi.build_request self action params)
                 = HttpApi.Response status None ∧ 200 ≤ status < 300))
       ∨ (∃ status,
            e = HttpFailed status
            ∧ ¬ (200 ≤ status < 300)
            ∧ ((∃ text, net (HttpApi.build_request self action params)
                        = HttpApi.Response status text)
               ∨ ∃ cls, net (HttpApi.build_request self action params)
                        = HttpApi.ResponseUnreadable status cls))
       ∨ (∃ status body,
            net (HttpApi.build_request self action params)
            = HttpApi.Response status (Some body)
            ∧ 200 ≤ status < 300
            ∧ ((e = ValueError ∧ loads body = HttpApi.NotJSON)
               ∨ (∃ cls, e = OtherError cls
                         ∧ loads body = HttpApi.LoadsRaises cls)
               ∨ ∃ d, loads body = HttpApi.Decoded (VDict d)
                      ∧ dict_get d "status" = VStr "failed"
                      ∧ e = ActionFailed (dict_get d "retcode")))
       ∨ (∃ cls,
            e = OtherError cls
            ∧ (net (HttpApi.build_request self action params)
               = HttpApi.RaisesOther cls
               ∨ ∃ status,
                   net (HttpApi.build_request self action params)
                   = HttpApi.ResponseUnreadable status cls
                   ∧ 200 ≤ status < 300))).
Proof.
  unfold HttpApi.call_action.
  destruct (HttpApi._is_available self); simpl; [|intros [= <-]; by left].
  intros H. right. split; [done|].
  destruct (net _) as [| |cls|status text|status cls] eqn:Hnet.
  - injection H as <-. by left.
  - injection H as <-. right; left. split; [done|]. by left.
  - injection H as <-. do 4 right. exists cls. split; [done|]. by left.
  - destruct (200 <=? status) eqn:E1; destruct (status <? 300) eqn:E2;
      simpl in H;
      try (injection H as <-; right; right; left;
           exists status; split; [done|]; split; [lia|]; left; by exists text).
    destruct text as [body|].
    + right; right; right; left. exists status, body.
      split; [done|]. split; [lia|].
      destruct (loads body) as [v| |cls].
      * right; right. apply handle_raises_inv in H as (d & -> & Hs & ->).
        by exists d.
      * injection H as <-. by left.
      * injection H as <-. right; left. by exists cls.
    + injection H as <-. right; left. split; [done|].
      right. exists status. split; [done|lia].
  - destruct (200 <=? status) eqn:E1; destruct (status <? 300) eqn:E2;
      simpl in H;
      try (injection H as <-; right; right; left;
           exists status; split; [done|]; split; [lia|]; right; by exists cls).
    injection H as <-. do 4 right. exists cls. split; [done|].
    right. exists status. split; [done|lia].
Qed.

(** [send_msg] at the backend of the fixtures: a 200 answer whose object
    reports status ["failed"] with retcode 100. *)
Lemma X3_http_failures_witness :
  HttpApi.call_action Fixtures.net Fixtures.loads Fixtures.http
    "send_msg" ∅ = Raise (ActionFailed (VInt 100))
  ∧ ∃ status body d,
      Fixtures.net (HttpApi.build_request Fixtures.http "send_msg" ∅)
      = HttpApi.Response status (Some body)
      ∧ 200 ≤ status < 300
      ∧ Fixtures.loads body = HttpApi.Decoded (VDict d)
      ∧ dict_get d "status" = VStr "failed"
      ∧ dict_get d "retcode" = VInt 100.
Proof.
  assert (HttpApi.call_action Fixtures.net Fixtures.loads Fixtures.http
            "send_msg" ∅ = Raise (ActionFailed (VInt 100))) as H
    by (vm_compute; reflexivity).
  split; [exact H|].
  destruct (X3_http_failures _ _ _ _ _ _ H)
    as [[? _]|[_ [[? _]|[[? _]|[(? & ? & _)
         |[(status & body & Hn & Hs & Hb)|(? & ? & _)]]]]]];
    try discriminate.
  destruct Hb as [[? _]|[(? & ? & _)|(d & Hl & Hst & He)]]; try discriminate.
  exists status, body, d. injection He as He. done.
Defined.

(** A request that runs into the client's total timeout, and a 200 body
    nested too deep for the decoder: neither [except] clause applies, and
    the caller sees the library's exception. *)
Example http_timeout_passes :
  HttpApi.call_action (λ _, HttpApi.RaisesOther "TimeoutError") Fixtures.loads
    Fixtures.http "get_status" ∅
  = Raise (OtherError "TimeoutError").
Proof. reflexivity. Qed.

Example http_decoder_error_passes :
  HttpApi.call_action Fixtures.net (λ _, HttpApi.LoadsRaises "RecursionError")
    Fixtures.http "get_status" ∅
  = Raise (OtherError "RecursionError").
Proof. reflexivity. Qed.

(** *** [str.rstrip('/')] and the root URL *)

Section strings.
Implicit Types (s t : string).
Local Open Scope string_scope.

Lemma append_nil_l s : "" +:+ s = s.
Proof. reflexivity. Qed.

Lemma append_cons a s t : String a s +:+ t = String a (s +:+ t).
Proof. reflexivity. Qed.

Lemma append_nil_r s : s +:+ "" = s.
Proof.
  induction s as [|a s IH]; [done|]. by rewrite append_cons, IH.
Qed.

Lemma append_assoc s1 s2 s3 : (s1 +:+ s2) +:+ s3 = s1 +:+ (s2 +:+ s3).
Proof.
  induction s1 as [|a s1 IH]; [done|]. by rewrite !append_cons, IH.
Qed.

Lemma rev_app_append s1 s2 : String.rev_app s1 s2 = String.rev s1 +:+ s2.
Proof.
  unfold String.rev. revert s2.
  induction s1 as [|a s1 IH]; intros s2; simpl; [done|].
  rewrite (IH (String a s2)), (IH (String a "")).
  by rewrite append_assoc.
Qed.

Lemma rev_cons a s : String.rev (String a s) = String.rev s +:+ String a "".
Proof. unfold String.rev at 1. simpl. by rewrite rev_app_append. Qed.

Lemma rev_append s1 s2 : String.rev (s1 +:+ s2) = String.rev s2 +:+ String.rev s1.
Proof.
  induction s1 as [|a s1 IH].
  - by rewrite append_nil_l, append_nil_r.
  - by rewrite append_cons, !rev_cons, IH, append_assoc.
Qed.

Lemma rev_involutive s : String.rev (String.rev s) = s.
Proof.
  induction s as [|a s IH]; [done|].
  by rewrite rev_cons, rev_append, IH.
Qed.

Lemma slashes_snoc n : slashes n +:+ "/" = slashes (S n).
Proof.
  induction n as [|n IH]; [done|].
  change (slashes (S n)) with (String "/"%char (slashes n)).
  by rewrite append_cons, IH.
Qed.

Lemma rev_slashes n : String.rev (slashes n) = slashes n.
Proof.
  induction n as [|n IH]; [done|].
  change (slashes (S n)) with (String "/"%char (slashes n)) at 1.
  by rewrite rev_cons, IH, slashes_snoc.
Qed.

Lemma lstrip_slash_split s :
  ∃ n, s = slashes n +:+ HttpApi.lstrip_slash s
       ∧ ∀ t, HttpApi.lstrip_slash s ≠ String "/"%char t.
Proof.
  induction s as [|a s (n & Hs & Hn)].
  - by exists 0%nat.
  - destruct (decide (a = "/"%char)) as [->|Hne].
    + exists (S n). split; [|done].
      change (slashes (S n)) with (String "/"%char (slashes n)).
      rewrite append_cons. simpl. by rewrite <- Hs.
    + exists 0%nat.
      assert (HttpApi.lstrip_slash (String a s) = String a s) as ->.
      { simpl. destruct a as [[] [] [] [] [] [] [] []]; try done. }
      split; [done|]. congruence.
Qed.

Lemma rstrip_slash_split s :
  ∃ n, s = HttpApi.rstrip_slash s +:+ slashes n
       ∧ ∀ t, HttpApi.rstrip_slash s ≠ t +:+ "/".
Proof.
  unfold HttpApi.rstrip_slash.
  destruct (lstrip_slash_split (String.rev s)) as (n & Hs & Hn).
  exists n. split.
  - rewrite <- (rev_involutive s) at 1.
    rewrite Hs at 1. by rewrite rev_append, rev_slashes.
  - intros t Ht. apply (f_equal String.rev) in Ht.
    rewrite rev_involutive, rev_append in Ht.
    change (String.rev "/") with "/" in Ht.
    rewrite append_cons, append_nil_l in Ht.
    by eapply Hn.
Qed.

End strings.

(** X4.  Whatever root URL [HttpApi] is built with, what it keeps is the
    root without its trailing slashes; the transport is available exactly
    when something is left; and the request then goes to the kept root,
    one slash, and the action name. *)
Theorem X4_api_root_normalised (root : string) (token : option string)
    (action : string) (params : gmap string value) :
  (∃ n, root = (HttpApi.rstrip_slash root +:+ slashes n)%string)
  ∧ (∀ t, HttpApi.rstrip_slash root ≠ (t +:+ "/")%string)
  ∧ (HttpApi._is_available (HttpApi.__init__ (Some root) token) = true
     ↔ HttpApi.rstrip_slash root ≠ ""%string)
  ∧ (HttpApi._is_available (HttpApi.__init__ (Some root) token) = true →
     HttpApi.req_url
       (HttpApi.build_request (HttpApi.__init__ (Some root) token) action params)
     = (HttpApi.rstrip_slash root +:+ "/" +:+ action)%string).
Proof.
  destruct (rstrip_slash_split root) as (n & Hn & Hend).
  split; [by exists n|]. split; [done|].
  unfold HttpApi._is_available, HttpApi.__init__, HttpApi.build_request. simpl.
  destruct (bool_decide (root = ""%string)) eqn:E.
  - apply bool_decide_eq_true in E as ->. simpl. split; [|done].
    split; [done|]. intros H. by destruct H.
  - simpl. split; [|done].
    rewrite negb_true_iff, bool_decide_eq_false. done.
Qed.

Lemma X4_api_root_normalised_witness :
  HttpApi.req_url
    (HttpApi.build_request
       (HttpApi.__init__ (Some "http://127.0.0.1:5700//"%string) None)
       "send_msg" ∅)
  = "http://127.0.0.1:5700/send_msg"%string.
Proof.
  destruct (X4_api_root_normalised "http://127.0.0.1:5700//" None
              "send_msg" ∅) as (_ & _ & _ & H).
  rewrite H; reflexivity.
Defined.

(** ** The sequence generator *)

(** X5.  Any two of the first [sys.maxsize] calls of [next] return
    different identifiers; and every call number [i + 1 + sys.maxsize]
    returns what call number [i + 1] returned, so that is the most that
    can be told apart. *)
Theorem X5_identifiers_distinct (sys_maxsize : Z) (j n : N) :
  1 < sys_maxsize →
  (j < n)%N → Z.of_N n < sys_maxsize →
  _SequenceGenerator.nth_id sys_maxsize j ≠ _SequenceGenerator.nth_id sys_maxsize n
  ∧ ∀ i : N,
      _SequenceGenerator.nth_id sys_maxsize (i + Z.to_N sys_maxsize)
      = _SequenceGenerator.nth_id sys_maxsize i.
Proof.
  intros HM Hjn Hn. split; [by apply nth_id_distinct|].
  intros i. rewrite !nth_id_formula by done.
  rewrite N2Z.inj_add, Z2N.id by lia.
  replace (1 + (Z.of_N i + sys_maxsize)) with (1 + Z.of_N i + 1 * sys_maxsize)
    by lia.
  by rewrite Z.mod_add by lia.
Qed.

Lemma X5_identifiers_distinct_witness :
  _SequenceGenerator.nth_id _SequenceGenerator.maxsize_32 0
  ≠ _SequenceGenerator.nth_id _SequenceGenerator.maxsize_32
      (Z.to_N (_SequenceGenerator.maxsize_32 - 1)).
Proof.
  apply (X5_identifiers_distinct _SequenceGenerator.maxsize_32 0
           (Z.to_N (_SequenceGenerator.maxsize_32 - 1)));
    vm_compute; done.
Defined.

(** X6.  Until the counter wraps the identifiers count up from 1: call
    number [n + 1] returns [n + 1] as long as that is below [sys.maxsize],
    so none of the first [sys.maxsize - 1] identifiers is 0, and the
    generator's counter stays within [0 .. sys.maxsize - 1] whatever state
    it is called in. *)
Theorem X6_identifiers_count_up (sys_maxsize : Z) (n : N) :
  1 < sys_maxsize →
  (1 + Z.of_N n < sys_maxsize →
     _SequenceGenerator.nth_id sys_maxsize n = 1 + Z.of_N n)
  ∧ (∀ g, 0 ≤ _SequenceGenerator._seq
                 (snd (_SequenceGenerator.next sys_maxsize g)) < sys_maxsize)
  ∧ (∀ g, fst (_SequenceGenerator.next sys_maxsize g) = _SequenceGenerator._seq g).
Proof.
  intros HM. split; [|split].
  - intros Hn. rewrite nth_id_formula by done. apply Z.mod_small. lia.
  - intros g. rewrite seq_next. apply Z.mod_pos_bound. lia.
  - done.
Qed.

Lemma X6_identifiers_count_up_witness :
  _SequenceGenerator.nth_id _SequenceGenerator.maxsize_64 41 = 42.
Proof.
  destruct (X6_identifiers_count_up _SequenceGenerator.maxsize_64 41)
    as (H & _); [reflexivity|].
  apply H. reflexivity.
Defined.

(** ** Replies reaching the store *)

Lemma echo_seq_Some (d : gmap string value) (k : Z) :
  ResultStore.echo_seq d = Some k
  ↔ ∃ echo, d !! "echo"%string = Some (VDict echo)
            ∧ (echo !! "seq"%string = Some (VInt k)
               ∨ ∃ b : bool, echo !! "seq"%string = Some (VBool b)
                             ∧ k = if b then 1 else 0).
Proof.
  unfold ResultStore.echo_seq, dict_get. split.
  - destruct (d !! "echo"%string) as [[| | | | | |echo]|]; simpl; try done.
    destruct (echo !! "seq"%string) as [[|b|n| | | |]|] eqn:Es;
      simpl; try done.
    + intros [= <-]. exists echo. split; [done|]. right. by exists b.
    + intros [= <-]. exists echo. split; [done|]. by left.
  - intros (echo & -> & Hs). simpl.
    destruct Hs as [->|(b & -> & ->)]; done.
Qed.

(** X7.  A reply whose [echo.seq] has a slot with a pending future gives
    that future the whole reply as its result, raises nothing, and
    touches neither [_futures] nor any other future. *)
Theorem X7_add_fulfils_one (cls : ResultStore.t) (d : gmap string value)
    (k : Z) (f : nat) :
  ResultStore.echo_seq d = Some k →
  ResultStore._futures cls !! k = Some f →
  ResultStore.heap cls !! f = Some ResultStore.Pending →
  ∃ cls',
    ResultStore.add (VDict d) cls = (Ok (), cls')
    ∧ ResultStore._futures cls' = ResultStore._futures cls
    ∧ ResultStore.heap cls' !! f = Some (ResultStore.Finished (VDict d))
    ∧ (∀ g, g ≠ f → ResultStore.heap cls' !! g = ResultStore.heap cls !! g)
    ∧ length (ResultStore.heap cls') = length (ResultStore.heap cls).
Proof.
  intros Hk Hf Hp. eexists. split; [by apply (add_pending d k f)|]. simpl.
  split; [done|].
  split; [apply list_lookup_insert_eq; by eapply lookup_lt_Some|].
  split; [intros g Hg; by rewrite list_lookup_insert_ne|].
  by rewrite length_insert.
Qed.

Lemma X7_add_fulfils_one_witness :
  ∃ cls',
    ResultStore.add (VDict (Fixtures.reply 5)) (Loop.store Fixtures.two_waiting)
    = (Ok (), cls')
    ∧ ResultStore.heap cls' !! 0%nat
      = Some (ResultStore.Finished (VDict (Fixtures.reply 5)))
    ∧ ResultStore.heap cls' !! 1%nat = Some ResultStore.Pending.
Proof.
  destruct (X7_add_fulfils_one (Loop.store Fixtures.two_waiting)
              (Fixtures.reply 5) 5 0) as (cls' & H1 & _ & H3 & H4 & _);
    [reflexivity | reflexivity | reflexivity |].
  exists cls'. split; [done|]. split; [done|].
  rewrite H4 by done. reflexivity.
Defined.

(** X8.  Replies are not idempotent: once a reply for a sequence number
    has been taken and the waiter has not left yet, a further reply for
    the same number makes [add] raise [InvalidStateError], and the first
    result stays; the same happens when the slot's future was cancelled. *)
Theorem X8_second_reply_refused (cls : ResultStore.t)
    (d d' : gmap string value) (k : Z) (f : nat) :
  ResultStore.echo_seq d = Some k →
  ResultStore.echo_seq d' = Some k →
  ResultStore._futures cls !! k = Some f →
  (ResultStore.heap cls !! f = Some ResultStore.Pending →
     ResultStore.add (VDict d') (snd (ResultStore.add (VDict d) cls))
     = (Raise InvalidStateError, snd (ResultStore.add (VDict d) cls))
     ∧ ResultStore.heap (snd (ResultStore.add (VDict d) cls)) !! f
       = Some (ResultStore.Finished (VDict d)))
  ∧ (ResultStore.heap cls !! f = Some ResultStore.Cancelled →
     ResultStore.add (VDict d) cls = (Raise InvalidStateError, cls)).
Proof.
  intros Hk Hk' Hf. split.
  - intros Hp. rewrite (add_pending d k f) by done. cbn [snd].
    assert (<[f:=ResultStore.Finished (VDict d)]> (ResultStore.heap cls) !! f
            = Some (ResultStore.Finished (VDict d))) as Hfin
      by (apply list_lookup_insert_eq; by eapply lookup_lt_Some).
    split; [|done].
    apply (add_not_pending d' k f); [done|done|].
    cbn [ResultStore.heap]. by rewrite Hfin.
  - intros Hc. apply (add_not_pending d k f); [done|done|]. by rewrite Hc.
Qed.

Lemma X8_second_reply_refused_witness :
  ResultStore.add (VDict (Fixtures.reply 5))
    (snd (ResultStore.add (VDict (Fixtures.reply 5))
            (Loop.store Fixtures.two_waiting)))
  = (Raise InvalidStateError,
     snd (ResultStore.add (VDict (Fixtures.reply 5))
            (Loop.store Fixtures.two_waiting))).
Proof.
  destruct (X8_second_reply_refused (Loop.store Fixtures.two_waiting)
              (Fixtures.reply 5) (Fixtures.reply 5) 5 0) as (H & _);
    [reflexivity | reflexivity | reflexivity |].
  apply H. reflexivity.
Defined.

(** X9.  [add] acts on a frame only if its [echo] is an object whose
    [seq] is an [int] (a [bool] counts, as 1 or 0).  A frame without
    [echo], with an [echo] that is no object, or with a [seq] that is
    missing, a string, a float, null or a container is dropped: nothing is
    raised and the store is unchanged. *)
Theorem X9_add_ignores_malformed (cls : ResultStore.t) (d : gmap string value) :
  (¬ ∃ echo, d !! "echo"%string = Some (VDict echo)
             ∧ ((∃ n, echo !! "seq"%string = Some (VInt n))
                ∨ ∃ b, echo !! "seq"%string = Some (VBool b))) →
  ResultStore.add (VDict d) cls = (Ok (), cls).
Proof.
  intros Hno.
  assert (ResultStore.echo_seq d = None) as He.
  { destruct (ResultStore.echo_seq d) as [k|] eqn:E; [|done].
    exfalso. apply Hno. apply echo_seq_Some in E as (echo & He & Hs).
    exists echo. split; [done|].
    destruct Hs as [Hs|(b & Hs & _)]; [left|right]; eauto. }
  unfold ResultStore.add. by rewrite He.
Qed.

(** A reply whose [seq] came back as the string "5". *)
Lemma X9_add_ignores_malformed_witness :
  ResultStore.add
    (VDict {[ "status"%string := VStr "ok";
              "echo"%string := VDict {[ "seq"%string := VStr "5" ]} ]})
    (Loop.store Fixtures.two_waiting)
  = (Ok (), Loop.store Fixtures.two_waiting).
Proof.
  apply X9_add_ignores_malformed.
  intros (echo & He & Hs). vm_compute in He. injection He as <-.
  destruct Hs as [[n Hn]|[b Hb]]; vm_compute in Hn || vm_compute in Hb; done.
Defined.

(** ** [fetch] and the replies it can receive *)

Section fetch_facts.
Implicit Types (s : Loop.t) (c : Loop.call) (e : Loop.event)
  (cls : ResultStore.t) (h : list ResultStore.future_state).
Local Open Scope nat_scope.

Lemma lookup_cancel_Finished f g r h :
  ResultStore.cancel f h !! g = Some (ResultStore.Finished r)
  ↔ h !! g = Some (ResultStore.Finished r).
Proof.
  unfold ResultStore.cancel.
  destruct (h !! f) as [[| |]|] eqn:E; try done.
  destruct (decide (f = g)) as [->|Hne].
  - rewrite list_lookup_insert_eq by (by eapply lookup_lt_Some).
    rewrite E. split; intros [=].
  - by rewrite list_lookup_insert_ne.
Qed.

Lemma lookup_wait_for_effect_Finished f g w r h :
  ResultStore.wait_for_effect f w h !! g = Some (ResultStore.Finished r)
  ↔ h !! g = Some (ResultStore.Finished r).
Proof. destruct w; simpl; by rewrite ?lookup_cancel_Finished. Qed.

(** What [add] can do to the store: nothing, or give the pending future
    of the slot of [echo.seq] the reply. *)
Lemma add_cases result cls :
  snd (ResultStore.add result cls) = cls
  ∨ ∃ d k f,
      result = VDict d ∧ ResultStore.echo_seq d = Some k
      ∧ ResultStore._futures cls !! k = Some f
      ∧ ResultStore.heap cls !! f = Some ResultStore.Pending
      ∧ snd (ResultStore.add result cls)
        = {| ResultStore._futures := ResultStore._futures cls;
             ResultStore.heap :=
               <[f := ResultStore.Finished result]> (ResultStore.heap cls) |}.
Proof.
  unfold ResultStore.add.
  destruct result as [| | | | | |d]; try by left.
  destruct (ResultStore.echo_seq d) as [k|] eqn:Ek; [|by left].
  destruct (ResultStore._futures cls !! k) as [f|] eqn:Ef; [|by left].
  unfold ResultStore.set_result.
  destruct (ResultStore.heap cls !! f) as [[| |]|] eqn:Eh; try by left.
  right. by exists d, k, f.
Qed.

Lemma leave_status i c w s :
  Loop.calls s !! i = Some c →
  Loop.status_of i (Loop.leave i c w s)
  = Some (Loop.Exited (fst (ResultStore.fetch_resume (Loop.c_seq c)
                              (Loop.c_future c) w (Loop.store s)))).
Proof.
  intros Hc. unfold Loop.status_of. rewrite leave_calls.
  by rewrite list_lookup_insert_eq by (by eapply lookup_lt_Some).
Qed.

Lemma fetch_resume_Ok seq f w cls r :
  fst (ResultStore.fetch_resume seq f w cls) = Ok r →
  w = ResultStore.Fulfilled r.
Proof.
  unfold ResultStore.fetch_resume.
  destruct (ResultStore._futures cls !! seq); destruct w; simpl; congruence.
Qed.

(** A call that leaves with a result leaves with the result its own
    future held. *)
Lemma step_wake_result e s s' i c r :
  Loop.step e s = Some s' →
  Loop.targets i e = true →
  Loop.calls s !! i = Some c →
  Loop.status_of i s' = Some (Loop.Exited (Ok r)) →
  ResultStore.heap (Loop.store s) !! Loop.c_future c
  = Some (ResultStore.Finished r).
Proof.
  intros Hstep Ht Hc Hst.
  destruct e as [k|res|j|j|j|d]; simpl in Ht; try done;
    apply bool_decide_eq_true in Ht; subst j; simpl in Hstep;
    rewrite Hc in Hstep.
  - destruct (Loop.is_waiting c); [|done].
    destruct (ResultStore.heap (Loop.store s) !! Loop.c_future c)
      as [[|r'|]|] eqn:Eh; try done.
    injection Hstep as <-. rewrite leave_status in Hst by done.
    injection Hst as Hst. apply fetch_resume_Ok in Hst. congruence.
  - destruct (Loop.is_waiting c && (Loop.c_deadline c <=? Loop.now s)%Z);
      [|done].
    destruct (ResultStore.heap (Loop.store s) !! Loop.c_future c)
      as [[|r'|]|]; try done.
    injection Hstep as <-. rewrite leave_status in Hst by done.
    injection Hst as Hst. by apply fetch_resume_Ok in Hst.
  - destruct (Loop.is_waiting c); [|done].
    injection Hstep as <-. rewrite leave_status in Hst by done.
    injection Hst as Hst. by apply fetch_resume_Ok in Hst.
Qed.

End fetch_facts.

Section correlation.
Implicit Types (s : Loop.t) (c : Loop.call) (e : Loop.event).
Local Open Scope nat_scope.

Lemma correlated_step e s s' :
  Loop.wf s → correlated s → Loop.step e s = Some s' → correlated s'.
Proof.
  intros Hwf (Hfut & Hexit) Hstep.
  pose proof Hwf as (Hlen & Hidx & Hown).
  assert (∀ j, Loop.targets j e = true → correlated s') as Hwake.
  { intros j Hj.
    destruct (step_wake_inv _ _ _ j Hstep Hj) as (c & w & Hc & Hw & Hs').
    split.
    - intros i c' r Hi Hr. subst s'.
      rewrite leave_store, fetch_resume_heap in Hr.
      apply lookup_wait_for_effect_Finished in Hr.
      rewrite leave_calls in Hi.
      destruct (decide (j = i)) as [->|Hne].
      + rewrite list_lookup_insert_eq in Hi by (by eapply lookup_lt_Some).
        injection Hi as <-. simpl. by eapply Hfut.
      + rewrite list_lookup_insert_ne in Hi by done. by eapply Hfut.
    - intros i c' r Hi Hr.
      destruct (decide (j = i)) as [->|Hne].
      + assert (Loop.status_of i s' = Some (Loop.Exited (Ok r))) as Hst.
        { unfold Loop.status_of. by rewrite Hi; simpl; rewrite Hr. }
        pose proof (step_wake_result _ _ _ _ _ _ Hstep Hj Hc Hst) as Hheap.
        rewrite (Hidx i c Hc) in Hheap.
        destruct (Hfut i c r Hc Hheap) as (d & -> & Hd).
        exists d. split; [done|].
        subst s'. rewrite leave_calls in Hi.
        rewrite list_lookup_insert_eq in Hi by (by eapply lookup_lt_Some).
        by injection Hi as <-.
      + subst s'. rewrite leave_calls in Hi.
        rewrite list_lookup_insert_ne in Hi by done. by eapply Hexit. }
  destruct e as [k|result|j|j|j|d];
    try (apply (Hwake j); simpl; by rewrite bool_decide_eq_true_2);
    simpl in Hstep.
  - unfold ResultStore.fetch_register in Hstep. simpl in Hstep.
    injection Hstep as <-. split; simpl.
    + intros i c r Hi Hr.
      apply lookup_app_Some in Hi as [Hi|[Hge Hi]].
      * rewrite lookup_app_l in Hr by (rewrite Hlen; by eapply lookup_lt_Some).
        by eapply Hfut.
      * rewrite lookup_app_r in Hr by lia. rewrite Hlen in Hr.
        destruct (i - length (Loop.calls s)); [done|].
        by destruct n.
    + intros i c r Hi Hr.
      apply lookup_app_Some in Hi as [Hi|[Hge Hi]]; [by eapply Hexit|].
      destruct (i - length (Loop.calls s)) as [|n]; [|by destruct n].
      by injection Hi as <-.
  - injection Hstep as <-. split; simpl; [|done].
    intros i c r Hi Hr.
    destruct (add_cases result (Loop.store s))
      as [Hsame|(d & k & f & -> & Hk & Hf & Hp & Hs')].
    + rewrite Hsame in Hr. by eapply Hfut.
    + rewrite Hs' in Hr. simpl in Hr.
      destruct (decide (f = i)) as [->|Hne].
      * rewrite list_lookup_insert_eq in Hr by (by eapply lookup_lt_Some).
        injection Hr as <-. exists d. split; [done|].
        destruct (Hown k i Hf) as (c' & Hc' & Hseq & _).
        rewrite Hi in Hc'. injection Hc' as <-. by rewrite Hseq.
      * rewrite list_lookup_insert_ne in Hr by done. by eapply Hfut.
  - destruct (0 <=? d)%Z; [|done]. by injection Hstep as <-.
Qed.

Lemma correlated_reachable s : Loop.reachable s → correlated s.
Proof.
  intros [evs Hrun].
  assert (Loop.wf Loop.initial ∧ correlated Loop.initial) as Hinit.
  { split; [apply wf_initial|]. split; intros i c r Hi; by destruct i. }
  revert Hinit Hrun. generalize Loop.initial as s0.
  induction evs as [|e evs IH]; intros s0 [Hwf Hc] Hrun; simpl in Hrun.
  - by injection Hrun as <-.
  - destruct (Loop.step e s0) as [s1|] eqn:E; [|done].
    apply (IH s1); [|done].
    split; [by eapply wf_step|by eapply correlated_step].
Qed.

(** No event but a new [fetch] of [seq] brings a slot for [seq] into the
    store. *)
Lemma step_slot_absent e s s' seq :
  Loop.step e s = Some s' →
  Loop.refetches seq e = false →
  ResultStore._futures (Loop.store s) !! seq = None →
  ResultStore._futures (Loop.store s') !! seq = None.
Proof.
  intros Hstep Hrf Hno.
  assert (∀ j, Loop.targets j e = true →
               ResultStore._futures (Loop.store s') !! seq = None) as Hwake.
  { intros j Hj.
    destruct (step_wake_inv _ _ _ j Hstep Hj) as (c & w & _ & _ & ->).
    rewrite leave_store, fetch_resume_futures.
    apply lookup_delete_None. by right. }
  destruct e as [k|result|j|j|j|d];
    try (apply (Hwake j); simpl; by rewrite bool_decide_eq_true_2);
    simpl in Hstep.
  - simpl in Hrf. apply bool_decide_eq_false in Hrf.
    unfold ResultStore.fetch_register in Hstep. simpl in Hstep.
    injection Hstep as <-. simpl. by rewrite lookup_insert_ne.
  - injection Hstep as <-. simpl. by rewrite add_futures.
  - destruct (0 <=? d)%Z; [|done]. by injection Hstep as <-.
Qed.

Lemma run_slot_absent evs s s' seq :
  Loop.run evs s = Some s' →
  Forall (λ e, Loop.refetches seq e = false) evs →
  ResultStore._futures (Loop.store s) !! seq = None →
  ResultStore._futures (Loop.store s') !! seq = None.
Proof.
  intros Hrun Hevs. revert s Hrun.
  induction Hevs as [|e evs He Hevs IH]; intros s Hrun Hno; simpl in Hrun.
  - by injection Hrun as <-.
  - destruct (Loop.step e s) as [s1|] eqn:E; [|done].
    apply (IH s1); [done|]. by eapply step_slot_absent.
Qed.

Lemma run_call_other evs s s' i c :
  Loop.run evs s = Some s' →
  Forall (λ e, Loop.targets i e = false) evs →
  Loop.calls s !! i = Some c → Loop.calls s' !! i = Some c.
Proof.
  intros Hrun Hevs. revert s Hrun.
  induction Hevs as [|e evs He Hevs IH]; intros s Hrun Hc; simpl in Hrun.
  - by injection Hrun as <-.
  - destruct (Loop.step e s) as [s1|] eqn:E; [|done].
    apply (IH s1); [done|]. by eapply step_call_other.
Qed.

Lemma add_absent d k cls :
  ResultStore.echo_seq d = Some k →
  ResultStore._futures cls !! k = None →
  ResultStore.add (VDict d) cls = (Ok (), cls).
Proof. intros Hk Hno. unfold ResultStore.add. by rewrite Hk, Hno. Qed.

End correlation.

(** X10.  [fetch] leaves [_futures] as it found it: entered on a sequence
    number without a slot and left again, for whichever reason, before any
    other coroutine ran, it gives back the same dict, and what it returns
    or raises is the wake-up's own outcome, never the [KeyError] of its
    clean-up.  The future it created stays behind as one more object. *)
Theorem X10_fetch_round_trip (cls : ResultStore.t) (seq : Z)
    (w : ResultStore.wakeup) :
  ResultStore._futures cls !! seq = None →
  ResultStore._futures
    (snd (ResultStore.fetch_resume seq
            (fst (ResultStore.fetch_register seq cls)) w
            (snd (ResultStore.fetch_register seq cls))))
  = ResultStore._futures cls
  ∧ fst (ResultStore.fetch_resume seq
           (fst (ResultStore.fetch_register seq cls)) w
           (snd (ResultStore.fetch_register seq cls)))
    = match w with
      | ResultStore.Fulfilled r => Ok r
      | ResultStore.TimedOut => Raise (NetworkError "WebSocket API call timeout")
      | ResultStore.TaskCancelled => Raise CancelledError
      end
  ∧ length (ResultStore.heap
              (snd (ResultStore.fetch_resume seq
                      (fst (ResultStore.fetch_register seq cls)) w
                      (snd (ResultStore.fetch_register seq cls)))))
    = S (length (ResultStore.heap cls)).
Proof.
  intros Hno. rewrite fetch_resume_futures, fetch_resume_heap.
  rewrite length_wait_for_effect.
  unfold ResultStore.fetch_register. simpl.
  split; [by rewrite delete_insert_eq, delete_id|].
  split; [|rewrite length_app; simpl; lia].
  apply fetch_resume_outcome. simpl. rewrite lookup_insert_eq. eauto.
Qed.

Lemma X10_fetch_round_trip_witness :
  ResultStore._futures
    (snd (ResultStore.fetch_resume 7
            (fst (ResultStore.fetch_register 7 (Loop.store Fixtures.two_waiting)))
            ResultStore.TaskCancelled
            (snd (ResultStore.fetch_register 7 (Loop.store Fixtures.two_waiting)))))
  = {[ 5 := 0%nat; 6 := 1%nat ]}.
Proof.
  destruct (X10_fetch_round_trip (Loop.store Fixtures.two_waiting) 7
              ResultStore.TaskCancelled) as (H & _); [reflexivity|].
  rewrite H. reflexivity.
Defined.

(** X11.  A call never returns a reply meant for another sequence number:
    in every reachable state, whatever a call of [fetch(seq)] has returned
    is an object whose [echo.seq] is [seq] - also when sequence numbers
    were reused while calls were pending. *)
Theorem X11_result_is_own_reply (s : Loop.t) (i : nat) (c : Loop.call)
    (r : value) :
  Loop.reachable s →
  Loop.calls s !! i = Some c →
  Loop.c_status c = Loop.Exited (Ok r) →
  ∃ d, r = VDict d ∧ ResultStore.echo_seq d = Some (Loop.c_seq c).
Proof.
  intros Hr Hc Hst. apply correlated_reachable in Hr as (_ & Hexit).
  by eapply Hexit.
Qed.

Lemma X11_result_is_own_reply_witness :
  ∃ d, VDict (Fixtures.reply 1) = VDict d ∧ ResultStore.echo_seq d = Some 1.
Proof.
  apply (X11_result_is_own_reply
           {| Loop.now := 0;
              Loop.store :=
                {| ResultStore._futures := ∅;
                   ResultStore.heap :=
                     [ResultStore.Finished (VDict (Fixtures.reply 1))] |};
              Loop.calls :=
                [ {| Loop.c_seq := 1; Loop.c_future := 0; Loop.c_deadline := 60;
                     Loop.c_status := Loop.Exited (Ok (VDict (Fixtures.reply 1))) |} ] |}
           0%nat
           {| Loop.c_seq := 1; Loop.c_future := 0; Loop.c_deadline := 60;
              Loop.c_status := Loop.Exited (Ok (VDict (Fixtures.reply 1))) |}).
  - exists [Loop.EFetch 1; Loop.EAdd (VDict (Fixtures.reply 1)); Loop.EResume 0].
    vm_compute. reflexivity.
  - reflexivity.
  - reflexivity.
Defined.

(** X12.  When two calls wait on one sequence number, the one that leaves
    second raises [KeyError], whatever woke it - a result included: the
    first to leave deleted the slot, nothing but a new [fetch] of the
    number brings it back, and the second [del] finds nothing. *)
Theorem X12_second_leaver_KeyError (s s1 s1' s2 : Loop.t) (i j : nat)
    (ci cj : Loop.call) (e1 e2 : Loop.event) (evs : list Loop.event) :
  i ≠ j →
  Loop.calls s !! i = Some ci →
  Loop.calls s !! j = Some cj →
  Loop.c_seq ci = Loop.c_seq cj →
  Loop.targets i e1 = true →
  Loop.step e1 s = Some s1 →
  Forall (λ e, Loop.refetches (Loop.c_seq cj) e = false
               ∧ Loop.targets j e = false) evs →
  Loop.run evs s1 = Some s1' →
  Loop.targets j e2 = true →
  Loop.step e2 s1' = Some s2 →
  Loop.status_of j s2 = Some (Loop.Exited (Raise KeyError))
  ∧ ResultStore._futures (Loop.store s2) !! Loop.c_seq cj = None.
Proof.
  intros Hij Hi Hj Hseq Ht1 Hstep1 Hevs Hrun Ht2 Hstep2.
  destruct (step_wake_inv _ _ _ i Hstep1 Ht1) as (c & w & Hc & _ & Hs1).
  rewrite Hi in Hc. injection Hc as <-.
  assert (ResultStore._futures (Loop.store s1) !! Loop.c_seq cj = None) as Hno.
  { subst s1. rewrite leave_store, <- Hseq. apply fetch_resume_removes. }
  assert (Loop.calls s1 !! j = Some cj) as Hj1.
  { subst s1. by rewrite leave_calls, list_lookup_insert_ne. }
  assert (ResultStore._futures (Loop.store s1') !! Loop.c_seq cj = None) as Hno'.
  { eapply run_slot_absent; [done| |done].
    eapply Forall_impl; [done|]. by intros e [? ?]. }
  assert (Loop.calls s1' !! j = Some cj) as Hj1'.
  { eapply run_call_other; [done| |done].
    eapply Forall_impl; [done|]. by intros e [? ?]. }
  destruct (step_wake_inv _ _ _ j Hstep2 Ht2) as (c & w' & Hc & _ & ->).
  rewrite Hj1' in Hc. injection Hc as <-.
  rewrite leave_status by done.
  rewrite fetch_resume_KeyError by done.
  split; [done|]. rewrite leave_store. apply fetch_resume_removes.
Qed.

(** Two waits on 5; the first is cancelled, the second gets its reply
    handed over too late to use it. *)
Lemma X12_second_leaver_KeyError_witness :
  Loop.run [Loop.EFetch 5; Loop.EFetch 5] Loop.initial = Some Fixtures.two_on_5
  ∧ ∃ s1 s2,
      Loop.step (Loop.ECancel 0) Fixtures.two_on_5 = Some s1
      ∧ Loop.step (Loop.ECancel 1) s1 = Some s2
      ∧ Loop.status_of 1 s2 = Some (Loop.Exited (Raise KeyError)).
Proof.
  split; [vm_compute; reflexivity|].
  exists (Loop.leave 0 Fixtures.waiting_on_5 ResultStore.TaskCancelled
            Fixtures.two_on_5).
  exists (Loop.leave 1 Fixtures.again_on_5 ResultStore.TaskCancelled
            (Loop.leave 0 Fixtures.waiting_on_5 ResultStore.TaskCancelled
               Fixtures.two_on_5)).
  split; [reflexivity|]. split; [reflexivity|].
  eapply (X12_second_leaver_KeyError Fixtures.two_on_5 _ _ _ 0%nat 1%nat
            Fixtures.waiting_on_5 Fixtures.again_on_5
            (Loop.ECancel 0) (Loop.ECancel 1) []);
    [done | reflexivity | reflexivity | reflexivity | reflexivity | reflexivity
    | constructor | reflexivity | reflexivity | reflexivity].
Defined.

(** X13.  Once a call has left [fetch] - by its result, its timeout or its
    cancellation - a reply for its sequence number is dropped without an
    error, however much later it comes, as long as the number has not been
    fetched again. *)
Theorem X13_late_reply_dropped (s s1 s2 : Loop.t) (i : nat) (c : Loop.call)
    (e : Loop.event) (evs : list Loop.event) (d : gmap string value) :
  Loop.calls s !! i = Some c →
  Loop.targets i e = true →
  Loop.step e s = Some s1 →
  Forall (λ e, Loop.refetches (Loop.c_seq c) e = false) evs →
  Loop.run evs s1 = Some s2 →
  ResultStore.echo_seq d = Some (Loop.c_seq c) →
  ResultStore.add (VDict d) (Loop.store s2) = (Ok (), Loop.store s2)
  ∧ Loop.step (Loop.EAdd (VDict d)) s2 = Some s2.
Proof.
  intros Hc Ht Hstep Hevs Hrun Hd.
  destruct (step_wake_inv _ _ _ i Hstep Ht) as (c' & w & Hc' & _ & ->).
  rewrite Hc in Hc'. injection Hc' as <-.
  assert (ResultStore._futures (Loop.store s2) !! Loop.c_seq c = None) as Hno.
  { eapply run_slot_absent; [done|done|].
    rewrite leave_store. apply fetch_resume_removes. }
  assert (ResultStore.add (VDict d) (Loop.store s2) = (Ok (), Loop.store s2))
    as Hadd by (by eapply add_absent).
  split; [done|].
  destruct s2 as [n st cs]. unfold Loop.step.
  cbn [Loop.store Loop.now Loop.calls] in *. by rewrite Hadd.
Qed.

(** The wait on 5 has timed out; ten seconds later its reply arrives. *)
Lemma X13_late_reply_dropped_witness :
  ∃ s1 s2,
    Loop.step (Loop.EExpire 0) Fixtures.two_waiting = Some s1
    ∧ Loop.run [Loop.EAdvance 10] s1 = Some s2
    ∧ Loop.step (Loop.EAdd (VDict (Fixtures.reply 5))) s2 = Some s2.
Proof.
  destruct (Loop.step (Loop.EExpire 0) Fixtures.two_waiting) as [s1|] eqn:H1;
    [|vm_compute in H1; discriminate].
  destruct (Loop.run [Loop.EAdvance 10] s1) as [s2|] eqn:H2.
  2:{ vm_compute in H1. injection H1 as <-. vm_compute in H2. discriminate. }
  exists s1, s2. split; [done|]. split; [done|].
  eapply (X13_late_reply_dropped Fixtures.two_waiting s1 s2 0%nat
            {| Loop.c_seq := 5; Loop.c_future := 0; Loop.c_deadline := 60;
               Loop.c_status := Loop.Waiting |}
            (Loop.EExpire 0) [Loop.EAdvance 10] (Fixtures.reply 5));
    [reflexivity | reflexivity | exact H1 | repeat constructor | exact H2
    | reflexivity].
Defined.

(** ** The persistent transport before it waits *)

Section wsr_facts.
Variable py_repr : value → string.
Implicit Types (self : WebSocketReverseApi.t) (ctx : WebSocketReverseApi.event_ws)
  (params : gmap string value).

(** [select] looks at [params] only through its [self_id]. *)
Lemma select_params self ctx params params' :
  dict_get params "self_id" = dict_get params' "self_id" →
  WebSocketReverseApi.select py_repr self ctx params
  = WebSocketReverseApi.select py_repr self ctx params'.
Proof. intros H. unfold WebSocketReverseApi.select. by rewrite H. Qed.

Lemma select_Ok_registered self ctx params ws :
  WebSocketReverseApi.select py_repr self ctx params = Ok ws →
  ∃ k, WebSocketReverseApi._clients self !! k = Some ws.
Proof.
  unfold WebSocketReverseApi.select.
  destruct ctx as [|[id|]]; simpl; [| |done].
  - destruct (truthy (dict_get params "self_id")).
    + destruct (_ !! WebSocketReverseApi.py_str py_repr _) as [ws'|] eqn:E;
        [|done].
      intros [= <-]. eauto.
    + case_bool_decide; [|done].
      destruct (head (map_to_list (WebSocketReverseApi._clients self)))
        as [[k ws']|] eqn:E; [|done].
      simpl. intros [= <-]. exists k.
      apply elem_of_map_to_list. by eapply head_Some_elem_of.
  - case_bool_decide as Hreg.
    + destruct (WebSocketReverseApi._clients self !! id) as [ws'|] eqn:E;
        [|done].
      intros [= <-]. eauto.
    + destruct (truthy (dict_get params "self_id")).
      * destruct (_ !! WebSocketReverseApi.py_str py_repr _) as [ws'|] eqn:E;
          [|done].
        intros [= <-]. eauto.
      * case_bool_decide; [|done].
        destruct (head (map_to_list (WebSocketReverseApi._clients self)))
          as [[k ws']|] eqn:E; [|done].
        simpl. intros [= <-]. exists k.
        apply elem_of_map_to_list. by eapply head_Some_elem_of.
Qed.

Lemma select_Raise self ctx params e :
  WebSocketReverseApi.select py_repr self ctx params = Raise e →
  e = ApiNotAvailable ∨ (e = KeyError ∧ ctx = WebSocketReverseApi.Bound None).
Proof.
  unfold WebSocketReverseApi.select.
  destruct ctx as [|[id|]]; simpl; [| |intros [= <-]; by right].
  - destruct (truthy (dict_get params "self_id")).
    + destruct (_ !! WebSocketReverseApi.py_str py_repr _); [done|].
      intros [= <-]. by left.
    + case_bool_decide;
        [destruct (head (map_to_list (WebSocketReverseApi._clients self)))
           as [[k ws']|]; [done|] |];
        intros [= <-]; by left.
  - case_bool_decide as Hreg.
    + destruct (WebSocketReverseApi._clients self !! id); [done|].
      intros [= <-]. by left.
    + destruct (truthy (dict_get params "self_id")).
      * destruct (_ !! WebSocketReverseApi.py_str py_repr _); [done|].
        intros [= <-]. by left.
      * case_bool_decide;
          [destruct (head (map_to_list (WebSocketReverseApi._clients self)))
             as [[k ws']|]; [done|] |];
          intros [= <-]; by left.
Qed.

End wsr_facts.

(** X14.  The persistent transport only ever selects a connection that is
    in the registry at that moment, and its selection fails in two ways
    only: with [ApiNotAvailable], or with the [KeyError] of an active
    context whose headers lack [X-Self-ID]. *)
Theorem X14_select_sound (py_repr : value → string)
    (self : WebSocketReverseApi.t) (ctx : WebSocketReverseApi.event_ws)
    (params : gmap string value) :
  (∀ ws,
     WebSocketReverseApi.select py_repr self ctx params = Ok ws →
     ∃ k, WebSocketReverseApi._clients self !! k = Some ws)
  ∧ (∀ e,
     WebSocketReverseApi.select py_repr self ctx params = Raise e →
     e = ApiNotAvailable
     ∨ (e = KeyError ∧ ctx = WebSocketReverseApi.Bound None)).
Proof.
  split.
  - intros ws. apply select_Ok_registered.
  - intros e. apply select_Raise.
Qed.

Lemma X14_select_sound_witness :
  ∃ k, WebSocketReverseApi._clients Fixtures.one_client !! k = Some 7%nat.
Proof.
  destruct (X14_select_sound Fixtures.repr Fixtures.one_client
              WebSocketReverseApi.Unbound ∅) as (H & _).
  apply H. reflexivity.
Defined.

Section decimal.

Lemma pretty_N_go_length (x : N) (s : string) :
  (String.length s ≤ String.length (pretty_N_go x s))%nat.
Proof.
  revert s. induction (N.lt_wf_0 x) as [x _ IH]; intros s.
  assert (x = 0 ∨ 0 < x)%N as [->|Hx] by lia.
  - by rewrite pretty_N_go_0.
  - rewrite pretty_N_go_step by done.
    etrans; [|apply IH; by apply N.div_lt]. simpl. lia.
Qed.

Lemma pretty_N_nonempty (x : N) : pretty x ≠ ""%string.
Proof.
  unfold pretty, pretty_N. case_decide as Hx; [done|].
  rewrite pretty_N_go_step by lia.
  intros H. apply (f_equal String.length) in H.
  pose proof (pretty_N_go_length (x `div` 10)
                (String (pretty_N_char (x `mod` 10)) "")) as Hl.
  rewrite H in Hl. simpl in Hl. lia.
Qed.

(** [str] of an integer is never the empty string. *)
Lemma pretty_Z_nonempty (n : Z) : pretty n ≠ ""%string.
Proof.
  destruct n as [|p|p]; [done| |done].
  apply (pretty_N_nonempty (Npos p)).
Qed.

End decimal.

(** X15.  How [self_id] is read.  A [self_id] that is falsy - [None], 0,
    [False], the empty string, an empty list or dict - counts as not
    given: the selection is the one made without it.  A non-zero integer
    selects what its decimal string selects, so [self_id=123] and
    [self_id="123"] address the same connection. *)
Theorem X15_self_id_reading (py_repr : value → string)
    (self : WebSocketReverseApi.t) (ctx : WebSocketReverseApi.event_ws)
    (params : gmap string value) :
  (truthy (dict_get params "self_id") = false →
     WebSocketReverseApi.select py_repr self ctx params
     = WebSocketReverseApi.select py_repr self ctx (delete "self_id"%string params))
  ∧ (∀ n : Z,
     n ≠ 0 →
     WebSocketReverseApi.select py_repr self ctx
       (<[ "self_id"%string := VInt n ]> params)
     = WebSocketReverseApi.select py_repr self ctx
         (<[ "self_id"%string := VStr (pretty n) ]> params)).
Proof.
  split.
  - intros Hf.
    assert (dict_get (delete "self_id"%string params) "self_id" = VNone) as Hdel
      by (unfold dict_get; by rewrite lookup_delete_eq).
    unfold WebSocketReverseApi.select. by rewrite Hf, Hdel.
  - intros n Hn.
    assert (∀ v, dict_get (<[ "self_id"%string := v ]> params) "self_id" = v)
      as Hget by (intros v; unfold dict_get; by rewrite lookup_insert_eq).
    assert (truthy (VInt n) = true) as Hint
      by (simpl; by rewrite (proj2 (Z.eqb_neq n 0))).
    assert (truthy (VStr (pretty n)) = true) as Hstr.
    { simpl. rewrite bool_decide_eq_false_2; [done|apply pretty_Z_nonempty]. }
    unfold WebSocketReverseApi.select. by rewrite !Hget, Hint, Hstr.
Qed.

Lemma X15_self_id_reading_witness :
  WebSocketReverseApi.select Fixtures.repr Fixtures.one_client
    WebSocketReverseApi.Unbound {[ "self_id"%string := VInt 0 ]} = Ok 7%nat
  ∧ WebSocketReverseApi.select Fixtures.repr Fixtures.one_client
      WebSocketReverseApi.Unbound
      (<[ "self_id"%string := VInt 123 ]> ∅)
    = WebSocketReverseApi.select Fixtures.repr Fixtures.one_client
        WebSocketReverseApi.Unbound
        (<[ "self_id"%string := VStr "123" ]> ∅).
Proof.
  destruct (X15_self_id_reading Fixtures.repr Fixtures.one_client
              WebSocketReverseApi.Unbound {[ "self_id"%string := VInt 0 ]})
    as (H & _).
  destruct (X15_self_id_reading Fixtures.repr Fixtures.one_client
              WebSocketReverseApi.Unbound ∅) as (_ & H').
  split.
  - rewrite H; reflexivity.
  - apply (H' 123). done.
Defined.

(** ** What a call puts on the wire *)



(** X17.  The frame and the store agree on where the sequence number
    lives: a reply that carries the [echo] of the frame sent for [seq]
    back unchanged is a reply for [seq], whatever else it holds. *)
Theorem X17_echo_round_trip (action : string) (params : gmap string value)
    (seq : Z) :
  ∃ fd,
    WebSocketReverseApi.frame action params seq = VDict fd
    ∧ dict_get fd "action" = VStr action
    ∧ dict_get fd "params" = VDict params
    ∧ ∀ d : gmap string value,
        d !! "echo"%string = fd !! "echo"%string →
        ResultStore.echo_seq d = Some seq
        ∧ Loop.resolves seq (Loop.EAdd (VDict d)) = true.
Proof.
  eexists. split; [reflexivity|].
  split; [reflexivity|]. split; [reflexivity|].
  intros d Hd.
  assert (ResultStore.echo_seq d = Some seq) as He.
  { apply echo_seq_Some. exists {[ "seq"%string := VInt seq ]}.
    split; [by rewrite Hd|]. left. by rewrite lookup_singleton_eq. }
  split; [done|]. simpl. by rewrite bool_decide_eq_true_2.
Qed.

Lemma X17_echo_round_trip_witness :
  ResultStore.echo_seq (Fixtures.reply 9) = Some 9.
Proof.
  destruct (X17_echo_round_trip "send_msg" ∅ 9) as (fd & Hfd & _ & _ & H).
  apply H. injection Hfd as <-. reflexivity.
Defined.

(** ** The dispatcher in every configuration *)

(** X18.  A dispatcher with one transport is that transport: it returns
    what the transport returns, raises what it raises - its
    [ApiNotAvailable] included - and leaves the world as the transport
    leaves it. *)
Theorem X18_single_transport {W : Type} (api : UnifiedApi.Api W)
    (action : string) (params : gmap string value) (w : W) :
  UnifiedApi.call_action
    {| UnifiedApi._http_api := None; UnifiedApi._wsr_api := Some api |}
    action params w
  = UnifiedApi.api_call_action api action params w
  ∧ UnifiedApi.call_action
      {| UnifiedApi._http_api := Some api; UnifiedApi._wsr_api := None |}
      action params w
    = UnifiedApi.api_call_action api action params w.
Proof.
  unfold UnifiedApi.call_action, UnifiedApi.attempt. simpl.
  destruct (UnifiedApi.api_call_action api action params w) as [[r|e] w'];
    [done|]. by destruct e.
Qed.

(** X19.  Whatever transports are configured, a call invokes the
    persistent one once if there is one, and after it the HTTP one once if
    there is one and the persistent one was missing or raised
    [ApiNotAvailable]; it invokes nothing else, nothing twice, and never
    the HTTP transport first. *)
Theorem X19_invocations {W : Type} (wsr http : option (UnifiedApi.Api W))
    (action : string) (params : gmap string value)
    (log : list UnifiedApi.transport) (w : W) :
  (is_Some http ∧ wsr_unavailable wsr action params w →
     fst (snd (UnifiedApi.call_action (logged_dispatcher wsr http)
                 action params (log, w)))
     = log ++ match wsr with Some _ => [UnifiedApi.Wsr] | None => [] end
           ++ [UnifiedApi.Http])
  ∧ (¬ (is_Some http ∧ wsr_unavailable wsr action params w) →
     fst (snd (UnifiedApi.call_action (logged_dispatcher wsr http)
                 action params (log, w)))
     = log ++ match wsr with Some _ => [UnifiedApi.Wsr] | None => [] end).
Proof.
  unfold UnifiedApi.call_action, UnifiedApi.attempt, logged_dispatcher,
    wsr_unavailable.
  destruct wsr as [a|]; destruct http as [h|]; simpl.
  - destruct (UnifiedApi.api_call_action a action params w) as [[r|e] w1]
      eqn:Ea; simpl.
    + split; [by intros [_ ?]|done].
    + destruct e; simpl;
        try (split; [by intros [_ ?]|done]).
      destruct (UnifiedApi.api_call_action h action params w1) as [[r|e] w2];
        simpl.
      * split; [by rewrite <- app_assoc|]. intros H. destruct H. eauto.
      * split; [|intros H; destruct H; eauto].
        intros _. destruct e; simpl; by rewrite <- app_assoc.
  - destruct (UnifiedApi.api_call_action a action params w) as [[r|e] w1];
      simpl.
    + split; [by intros [[? [=]] _]|done].
    + split; [by intros [[? [=]] _]|]. by destruct e.
  - destruct (UnifiedApi.api_call_action h action params w) as [[r|e] w1];
      simpl.
    + split; [done|]. intros H. destruct H. eauto.
    + split; [|intros H; destruct H; eauto]. by destruct e.
  - split; [by intros [[? [=]] _]|]. by rewrite app_nil_r.
Qed.

Lemma X19_invocations_witness :
  fst (snd (UnifiedApi.call_action
              (logged_dispatcher (Some Fixtures.wsr_down) (Some Fixtures.http_api))
              "get_status" ∅ ([], ())))
  = [UnifiedApi.Wsr; UnifiedApi.Http]
  ∧ fst (snd (UnifiedApi.call_action
                (logged_dispatcher (Some Fixtures.wsr_timeout)
                   (Some Fixtures.http_api))
                "get_status" ∅ ([], ())))
    = [UnifiedApi.Wsr].
Proof.
  split.
  - destruct (X19_invocations (Some Fixtures.wsr_down) (Some Fixtures.http_api)
                "get_status" ∅ [] ()) as (H & _).
    apply H. split; [eauto|reflexivity].
  - destruct (X19_invocations (Some Fixtures.wsr_timeout)
                (Some Fixtures.http_api) "get_status" ∅ [] ()) as (_ & H).
    apply H. intros [_ Hu]. simpl in Hu. discriminate.
Defined.

(** X20.  The dispatcher raises [ApiNotAvailable] exactly when every
    transport it has raised [ApiNotAvailable] (the HTTP one in the world
    the persistent one left); in particular it always does with no
    transport, and never when a transport returned or failed in another
    way. *)
Theorem X20_unavailable_iff {W : Type} (wsr http : option (UnifiedApi.Api W))
    (action : string) (params : gmap string value) (w : W) :
  fst (UnifiedApi.call_action
         {| UnifiedApi._http_api := http; UnifiedApi._wsr_api := wsr |}
         action params w) = Raise ApiNotAvailable
  ↔ wsr_unavailable wsr action params w
    ∧ wsr_unavailable http action params (after_wsr wsr action params w).
Proof.
  unfold UnifiedApi.call_action, UnifiedApi.attempt, wsr_unavailable, after_wsr.
  destruct wsr as [a|]; destruct http as [h|]; simpl.
  - destruct (UnifiedApi.api_call_action a action params w) as [[r|e] w1];
      simpl; [split; [done|by intros [? _]]|].
    destruct e; simpl; try (split; [done|by intros [? _]]).
    destruct (UnifiedApi.api_call_action h action params w1) as [[r|e] w2];
      simpl; [split; [done|by intros [_ ?]]|].
    destruct e; simpl; (split; [done|by intros [_ ?]]) || done.
  - destruct (UnifiedApi.api_call_action a action params w) as [[r|e] w1];
      simpl; [split; [done|by intros [? _]]|].
    destruct e; simpl; (split; [done|by intros [? _]]) || done.
  - destruct (UnifiedApi.api_call_action h action params w) as [[r|e] w1];
      simpl; [split; [done|by intros [_ ?]]|].
    destruct e; simpl; (split; [done|by intros [_ ?]]) || done.
  - done.
Qed.

(** ** Sequence numbers in a running process *)

Section process_facts.
Variable py_repr : value → string.
Variable json_dumps : value → string.
Variable M : Z.
Hypothesis M_gt : 1 < M.
Implicit Types (p : Process.t) (e : Process.event).
Local Open Scope nat_scope.

Abbreviation pstep := (Process.step py_repr json_dumps M).
Abbreviation prun := (Process.run py_repr json_dumps M).
Abbreviation pinv := (Process.inv M).

(** Only [fetch] adds a call, and nothing changes the sequence number a
    call was made with. *)
Lemma loop_step_seqs (l l' : Loop.t) (e : Loop.event) :
  Loop.step e l = Some l' →
  (∀ k, e ≠ Loop.EFetch k) →
  Loop.c_seq <$> Loop.calls l' = Loop.c_seq <$> Loop.calls l.
Proof.
  intros Hstep Hne.
  assert (∀ j, Loop.targets j e = true →
               Loop.c_seq <$> Loop.calls l' = Loop.c_seq <$> Loop.calls l)
    as Hwake.
  { intros j Hj.
    destruct (step_wake_inv _ _ _ j Hstep Hj) as (c & w & Hc & _ & ->).
    rewrite leave_calls, list_fmap_insert. simpl.
    apply list_insert_id. by rewrite list_lookup_fmap, Hc. }
  destruct e as [k|result|j|j|j|d];
    try (apply (Hwake j); simpl; by rewrite bool_decide_eq_true_2);
    simpl in Hstep.
  - by destruct (Hne k).
  - by injection Hstep as <-.
  - destruct (0 <=? d)%Z; [|done]. by injection Hstep as <-.
Qed.

Lemma loop_step_reachable (l l' : Loop.t) (e : Loop.event) :
  Loop.reachable l → Loop.step e l = Some l' → Loop.reachable l'.
Proof.
  intros Hr Hstep. apply (reachable_run [e] l l' Hr). simpl. by rewrite Hstep.
Qed.

Lemma inv_initial : pinv Process.initial.
Proof.
  split; [done|]. split; [|split].
  - intros x Hx. by apply elem_of_nil in Hx.
  - intros _. constructor.
  - by exists [].
Qed.

Lemma issued_step e p p' : pstep e p = Some p' → (Process.issued p ≤ Process.issued p')%N.
Proof.
  destruct e as [self ctx action params|k|k|l]; unfold Process.step.
  - destruct (WebSocketReverseApi.call_action_send _ _ _ _ _ _ _ _) as [[seq|x] w];
      intros [= <-]; simpl; lia.
  - destruct (Process.sending p !! k) as [seq|]; [|done].
    destruct (Loop.step (Loop.EFetch seq) (Process.loop p)); [|done].
    by intros [= <-].
  - destruct (Process.sending p !! k); [|done]. by intros [= <-].
  - destruct l; try done;
      match goal with
      | |- context [Loop.step ?e ?l] => destruct (Loop.step e l)
      end; try done; by intros [= <-].
Qed.

Lemma issued_run evs p p' : prun evs p = Some p' → (Process.issued p ≤ Process.issued p')%N.
Proof.
  revert p. induction evs as [|e evs IH]; intros p Hrun; simpl in Hrun.
  - by injection Hrun as <-.
  - destruct (pstep e p) as [p1|] eqn:E; [|done].
    etrans; [by eapply issued_step|by apply IH].
Qed.

Lemma inv_step e p p' : pinv p → pstep e p = Some p' → pinv p'.
Proof.
  intros (Hgen & Hmem & Hnd & Hreach) Hstep.
  destruct e as [self ctx action params|k|k|l]; unfold Process.step in Hstep.
  - destruct (WebSocketReverseApi.call_action_send _ _ _ _ _ _ _ _)
      as [[seq|x] w] eqn:Hsend.
    + apply call_action_send_inv in Hsend as (ws & _ & Hseq & ->).
      injection Hstep as <-. unfold Process.inv, Process.in_use. simpl.
      assert (seq = _SequenceGenerator.nth_id M (Process.issued p)) as Hnth.
      { unfold _SequenceGenerator.nth_id. by rewrite <- Hgen. }
      split; [|split; [|split]].
      * unfold _SequenceGenerator.after. rewrite N.iter_succ.
        fold (_SequenceGenerator.after M (Process.issued p)
                _SequenceGenerator.initial). by rewrite <- Hgen.
      * intros x Hx. rewrite !elem_of_app, list_elem_of_singleton in Hx.
        destruct Hx as [[Hx| ->]|Hx].
        -- destruct (Hmem x) as (j & Hj & ->);
             [apply elem_of_app; by left|]. exists j. split; [lia|done].
        -- exists (Process.issued p). split; [lia|done].
        -- destruct (Hmem x) as (j & Hj & ->);
             [apply elem_of_app; by right|]. exists j. split; [lia|done].
      * intros Hle. rewrite <- app_assoc. simpl.
        rewrite <- Permutation_middle. apply NoDup_cons. split.
        -- intros Hin. destruct (Hmem seq Hin) as (j & Hj & Hseqj).
           rewrite Hnth in Hseqj. symmetry in Hseqj. revert Hseqj.
           apply nth_id_distinct; [done|done|lia].
        -- apply Hnd. lia.
      * done.
    + assert (w = Process.wire p) as ->.
      { unfold WebSocketReverseApi.call_action_send in Hsend.
        destruct (WebSocketReverseApi.select _ _ _ _); [done|].
        by injection Hsend as _ <-. }
      by injection Hstep as <-.
  - destruct (Process.sending p !! k) as [seq|] eqn:Hk; [|done].
    destruct (Loop.step (Loop.EFetch seq) (Process.loop p)) as [l|] eqn:Hl;
      [|done].
    injection Hstep as <-.
    assert (Process.in_use
              {| Process.wire := Process.wire p; Process.loop := l;
                 Process.sending := delete k (Process.sending p);
                 Process.issued := Process.issued p |}
            ≡ₚ Process.in_use p) as Hperm.
    { unfold Process.in_use. simpl. simpl in Hl.
      unfold ResultStore.fetch_register in Hl. simpl in Hl.
      injection Hl as <-. simpl. rewrite fmap_snoc. simpl.
      rewrite (delete_Permutation (Process.sending p) k seq Hk) at 2.
      simpl. rewrite (assoc_L (++)), <- Permutation_cons_append. done. }
    split; [done|]. split; [|split].
    + intros x Hx. rewrite Hperm in Hx. by apply Hmem.
    + intros Hle. rewrite Hperm. by apply Hnd.
    + by eapply loop_step_reachable.
  - destruct (Process.sending p !! k) as [seq|] eqn:Hk; [|done].
    injection Hstep as <-.
    assert (Process.in_use p
            ≡ₚ seq :: Process.in_use
                        {| Process.wire := Process.wire p;
                           Process.loop := Process.loop p;
                           Process.sending := delete k (Process.sending p);
                           Process.issued := Process.issued p |}) as Hperm.
    { unfold Process.in_use. simpl.
      by rewrite (delete_Permutation (Process.sending p) k seq Hk) at 1. }
    split; [done|]. split; [|split].
    + intros x Hx. apply Hmem. rewrite Hperm. by right.
    + intros Hle. specialize (Hnd Hle). rewrite Hperm in Hnd.
      by apply NoDup_cons in Hnd as [_ ?].
    + done.
  - assert (∀ l', Loop.step l (Process.loop p) = Some l' →
                  (∀ k, l ≠ Loop.EFetch k) →
                  pinv {| Process.wire := Process.wire p; Process.loop := l';
                          Process.sending := Process.sending p;
                          Process.issued := Process.issued p |}) as Hloop.
    { intros l' Hl Hne. unfold Process.inv, Process.in_use. simpl.
      rewrite (loop_step_seqs _ _ _ Hl Hne).
      split; [done|]. split; [done|]. split; [done|].
      by eapply loop_step_reachable. }
    destruct l; try done;
      match type of Hstep with
      | context [Loop.step ?e ?l0] =>
          destruct (Loop.step e l0) as [l'|] eqn:Hl
      end; try done;
      injection Hstep as <-; by apply Hloop.
Qed.

Lemma inv_run evs p p' : pinv p → prun evs p = Some p' → pinv p'.
Proof.
  revert p. induction evs as [|e evs IH]; intros p Hinv Hrun; simpl in Hrun.
  - by injection Hrun as <-.
  - destruct (pstep e p) as [p1|] eqn:E; [|done].
    eapply IH; [|done]. by eapply inv_step.
Qed.

Lemma inv_reachable p : Process.reachable py_repr json_dumps M p → pinv p.
Proof. intros [evs Hrun]. eapply inv_run; [apply inv_initial|done]. Qed.

(** A number that a sending call holds is held by no call in the loop and
    has no slot. *)
Lemma sending_fresh p k seq :
  pinv p → (Z.of_N (Process.issued p) ≤ M)%Z →
  Process.sending p !! k = Some seq →
  (∀ j c, Loop.calls (Process.loop p) !! j = Some c → Loop.c_seq c ≠ seq)
  ∧ ResultStore._futures (Loop.store (Process.loop p)) !! seq = None.
Proof.
  intros (_ & _ & Hnd & Hreach) Hle Hk. specialize (Hnd Hle).
  apply NoDup_app in Hnd as (_ & Hdisj & _).
  assert (∀ j c, Loop.calls (Process.loop p) !! j = Some c →
                 Loop.c_seq c ≠ seq) as Hcalls.
  { intros j c Hj Hseq.
    apply (Hdisj seq); [by eapply list_elem_of_lookup_2|].
    apply list_elem_of_fmap. exists c. split; [done|].
    by eapply list_elem_of_lookup_2. }
  split; [done|].
  destruct (ResultStore._futures _ !! seq) as [f|] eqn:Ef; [|done].
  apply reachable_wf in Hreach as (_ & _ & Hown).
  destruct (Hown seq f Ef) as (c & Hc & Hseq & _).
  by destruct (Hcalls f c).
Qed.

End process_facts.

Section process_calls.
Variable py_repr : value → string.
Variable json_dumps : value → string.
Variable M : Z.
Hypothesis M_gt : 1 < M.
Implicit Types (p : Process.t) (e : Process.event).
Local Open Scope nat_scope.

Abbreviation qstep := (Process.step py_repr json_dumps M).
Abbreviation qrun := (Process.run py_repr json_dumps M).

Lemma process_run_app evs1 evs2 p :
  qrun (evs1 ++ evs2) p
  = match qrun evs1 p with
    | Some p1 => qrun evs2 p1
    | None => None
    end.
Proof.
  revert p. induction evs1 as [|e evs1 IH]; intros p; simpl; [done|].
  by destruct (qstep e p).
Qed.

(** In a process whose numbers are all different, no event of the process
    fetches the number of a waiting call again. *)
Lemma process_holds_step seq i dl fs replies e p p' :
  Process.inv M p → (Z.of_N (Process.issued p) ≤ M)%Z →
  Loop.holds seq i dl fs (Process.loop p) →
  (replies = true → fs ≠ ResultStore.Pending) →
  Process.unwoken i e →
  (replies = false → Process.quiet seq i e) →
  qstep e p = Some p' →
  Loop.holds seq i dl fs (Process.loop p').
Proof.
  intros Hinv Hle Hh Hrep Hun Hq Hstep.
  pose proof Hinv as (_ & _ & _ & Hreach).
  pose proof (reachable_wf _ Hreach) as Hwf.
  destruct e as [self ctx action params|k|k|l]; unfold Process.step in Hstep.
  - destruct (WebSocketReverseApi.call_action_send _ _ _ _ _ _ _ _)
      as [[x|x] w]; by injection Hstep as <-.
  - destruct (Process.sending p !! k) as [seq'|] eqn:Hk; [|done].
    destruct (Loop.step (Loop.EFetch seq') (Process.loop p)) as [l|] eqn:Hl;
      [|done].
    injection Hstep as <-. simpl.
    destruct (sending_fresh M p k seq' Hinv Hle Hk) as (Hfresh & _).
    destruct Hh as (Hi & Hrest).
    pose proof (Hfresh i _ Hi) as Hne. simpl in Hne.
    eapply (holds_step seq i dl fs replies); [done|by split|done| |done].
    split; [|split]; simpl; [|done|done].
    apply bool_decide_eq_false. congruence.
  - destruct (Process.sending p !! k); [|done]. by injection Hstep as <-.
  - assert (∀ l', Loop.step l (Process.loop p) = Some l' →
                  (∀ k, l ≠ Loop.EFetch k) →
                  Loop.holds seq i dl fs l') as Hloop.
    { intros l' Hl Hne.
      eapply (holds_step seq i dl fs replies); [done|done|done| |done].
      split; [|split].
      - destruct l as [k0| | | | |]; try done; by destruct (Hne k0).
      - exact Hun.
      - intros Hr. by destruct (Hq Hr). }
    destruct l; try done;
      match type of Hstep with
      | context [Loop.step ?e ?l0] =>
          destruct (Loop.step e l0) as [l'|] eqn:Hl
      end; try done;
      injection Hstep as <-; by apply Hloop.
Qed.

Lemma process_holds_run seq i dl fs replies evs p p' :
  Process.inv M p → (Z.of_N (Process.issued p') ≤ M)%Z →
  Loop.holds seq i dl fs (Process.loop p) →
  (replies = true → fs ≠ ResultStore.Pending) →
  Forall (Process.unwoken i) evs →
  (replies = false → Forall (Process.quiet seq i) evs) →
  qrun evs p = Some p' →
  Loop.holds seq i dl fs (Process.loop p').
Proof.
  intros Hinv Hle Hh Hrep Hun. revert p Hinv Hh.
  induction Hun as [|e evs He Hevs IH]; intros p Hinv Hh Hq Hrun;
    simpl in Hrun.
  - by injection Hrun as <-.
  - destruct (qstep e p) as [p1|] eqn:E; [|done].
    pose proof (issued_run _ _ _ _ _ _ Hrun) as Hmono.
    pose proof (issued_step _ _ _ _ _ _ E) as Hmono1.
    apply (IH p1); [by eapply inv_step| |  |done].
    + eapply (process_holds_step seq i dl fs replies e p p1); try done.
      * lia.
      * intros Hr. specialize (Hq Hr). by inversion Hq.
    + intros Hr. specialize (Hq Hr). by inversion Hq.
Qed.

(** The entry into [fetch] of a sending call. *)
Lemma process_fetch_holds p p' k seq :
  Process.inv M p → (Z.of_N (Process.issued p) ≤ M)%Z →
  Process.sending p !! k = Some seq →
  qstep (Process.PFetch k) p = Some p' →
  Loop.holds seq (length (Loop.calls (Process.loop p)))
    (Loop.now (Process.loop p) + ResultStore.wait_seconds)%Z
    ResultStore.Pending (Process.loop p').
Proof.
  intros Hinv Hle Hk Hstep.
  pose proof Hinv as (_ & _ & _ & Hreach).
  pose proof (reachable_wf _ Hreach) as Hwf.
  destruct (sending_fresh M p k seq Hinv Hle Hk) as (Hfresh & _).
  destruct (holds_fetch (Process.loop p) seq Hwf) as (l & Hl & _ & Hh).
  { intros j c Hj _. by eapply Hfresh. }
  unfold Process.step in Hstep. rewrite Hk, Hl in Hstep.
  by injection Hstep as <-.
Qed.

Lemma quiet_unwoken seq i evs :
  Forall (Process.quiet seq i) evs → Forall (Process.unwoken i) evs.
Proof.
  intros H. eapply Forall_impl; [done|].
  intros [| | |l]; simpl; try done. by intros [_ ?].
Qed.

End process_calls.

(** X21.  In a process whose calls of [fetch] all come from
    [WebSocketReverseApi.call_action], as long as no more than
    [sys.maxsize] sequence numbers have been drawn, no number is in use
    twice: a call that has sent its frame enters [fetch] with a number
    that no other call has sent or fetched with, pending or finished, and
    that has no slot in the store. *)
Theorem X21_numbers_unique (py_repr json_dumps : value → string)
    (sys_maxsize : Z) (p : Process.t) (k : nat) (seq : Z) :
  1 < sys_maxsize →
  Process.reachable py_repr json_dumps sys_maxsize p →
  Z.of_N (Process.issued p) ≤ sys_maxsize →
  Process.sending p !! k = Some seq →
  NoDup (Process.in_use p)
  ∧ Loop.reachable (Process.loop p)
  ∧ Loop.unheld seq (Process.loop p)
  ∧ (∀ k', Process.sending p !! k' = Some seq → k' = k)
  ∧ ResultStore._futures (Loop.store (Process.loop p)) !! seq = None.
Proof.
  intros HM Hr Hle Hk.
  pose proof (inv_reachable _ _ _ HM p Hr) as Hinv.
  pose proof Hinv as (_ & _ & Hnd & Hreach). specialize (Hnd Hle).
  destruct (sending_fresh sys_maxsize p k seq Hinv Hle Hk) as (Hfresh & Hno).
  split; [done|]. split; [done|]. split; [|split; [|done]].
  - intros j c Hj _. by eapply Hfresh.
  - intros k' Hk'. apply NoDup_app in Hnd as (Hnd & _).
    by eapply NoDup_lookup.
Qed.

Lemma X21_numbers_unique_witness :
  Loop.unheld 1 (Process.loop ProcessFixtures.one_sending)
  ∧ NoDup (Process.in_use ProcessFixtures.one_sending).
Proof.
  destruct (X21_numbers_unique Fixtures.repr Fixtures.dumps
              _SequenceGenerator.maxsize_64 ProcessFixtures.one_sending 0 1)
    as (H1 & _ & H3 & _).
  - reflexivity.
  - exists [ProcessFixtures.send_hi]. vm_compute. reflexivity.
  - vm_compute. discriminate.
  - reflexivity.
  - by split.
Defined.

(** X22.  The frame is sent before the future is registered: a reply that
    arrives while its call has sent and not yet entered [fetch] finds no
    slot and is dropped - the process is as if it had never come, and the
    call that then enters [fetch] waits on a pending future. *)
Theorem X22_early_reply_dropped (py_repr json_dumps : value → string)
    (sys_maxsize : Z) (p : Process.t) (k : nat) (seq : Z)
    (d : gmap string value) :
  1 < sys_maxsize →
  Process.reachable py_repr json_dumps sys_maxsize p →
  Z.of_N (Process.issued p) ≤ sys_maxsize →
  Process.sending p !! k = Some seq →
  ResultStore.echo_seq d = Some seq →
  Process.step py_repr json_dumps sys_maxsize
    (Process.PLoop (Loop.EAdd (VDict d))) p = Some p
  ∧ ∃ p',
      Process.run py_repr json_dumps sys_maxsize
        [Process.PLoop (Loop.EAdd (VDict d)); Process.PFetch k] p = Some p'
      ∧ Loop.holds seq (length (Loop.calls (Process.loop p)))
          (Loop.now (Process.loop p) + 60) ResultStore.Pending (Process.loop p').
Proof.
  intros HM Hr Hle Hk Hd.
  pose proof (inv_reachable _ _ _ HM p Hr) as Hinv.
  destruct (sending_fresh sys_maxsize p k seq Hinv Hle Hk) as (Hfresh & Hno).
  assert (Process.step py_repr json_dumps sys_maxsize
            (Process.PLoop (Loop.EAdd (VDict d))) p = Some p) as Hdrop.
  { unfold Process.step, Loop.step.
    rewrite (add_absent d seq _ Hd Hno). simpl.
    destruct p as [w [n st cs] sd iss]. done. }
  split; [done|].
  pose proof Hinv as (_ & _ & _ & Hreach).
  destruct (holds_fetch (Process.loop p) seq (reachable_wf _ Hreach))
    as (l & Hl & _ & Hh).
  { intros j c Hj _. by eapply Hfresh. }
  exists {| Process.wire := Process.wire p; Process.loop := l;
            Process.sending := delete k (Process.sending p);
            Process.issued := Process.issued p |}.
  split; [|exact Hh].
  cbn [Process.run]. rewrite Hdrop.
  unfold Process.step. by rewrite Hk, Hl.
Qed.

Lemma X22_early_reply_dropped_witness :
  Process.step Fixtures.repr Fixtures.dumps _SequenceGenerator.maxsize_64
    (Process.PLoop (Loop.EAdd (VDict (Fixtures.reply 1)))) ProcessFixtures.one_sending
  = Some ProcessFixtures.one_sending.
Proof.
  destruct (X22_early_reply_dropped Fixtures.repr Fixtures.dumps
              _SequenceGenerator.maxsize_64 ProcessFixtures.one_sending 0 1
              (Fixtures.reply 1)) as (H & _).
  - reflexivity.
  - exists [ProcessFixtures.send_hi]. vm_compute. reflexivity.
  - vm_compute. discriminate.
  - reflexivity.
  - reflexivity.
  - exact H.
Defined.

(** X23.  A call of the persistent transport that has sent its frame,
    enters [fetch] and then sees no reply for its number and is not
    cancelled raises [NetworkError] when its timer fires, which it can
    once 60 seconds have passed and not before; its number is then gone
    from the store.  Nothing has to be assumed about the other calls of
    the process: as long as no more than [sys.maxsize] numbers have been
    drawn, none of them can take the slot. *)
Theorem X23_call_times_out (py_repr json_dumps : value → string)
    (sys_maxsize : Z) (p0 p1 : Process.t) (k : nat) (seq : Z)
    (evs : list Process.event) :
  1 < sys_maxsize →
  Process.reachable py_repr json_dumps sys_maxsize p0 →
  Process.sending p0 !! k = Some seq →
  Forall (Process.quiet seq (length (Loop.calls (Process.loop p0)))) evs →
  Process.run py_repr json_dumps sys_maxsize (Process.PFetch k :: evs) p0
  = Some p1 →
  Z.of_N (Process.issued p1) ≤ sys_maxsize →
  (Loop.now (Process.loop p1) < Loop.now (Process.loop p0) + 60 →
     Loop.step (Loop.EExpire (length (Loop.calls (Process.loop p0))))
       (Process.loop p1) = None)
  ∧ (Loop.now (Process.loop p0) + 60 ≤ Loop.now (Process.loop p1) →
     ∃ l2,
       Loop.step (Loop.EExpire (length (Loop.calls (Process.loop p0))))
         (Process.loop p1) = Some l2
       ∧ Loop.status_of (length (Loop.calls (Process.loop p0))) l2
         = Some (Loop.Exited (Raise (NetworkError "WebSocket API call timeout")))
       ∧ ResultStore._futures (Loop.store l2) !! seq = None).
Proof.
  intros HM Hr Hk Hevs Hrun Hle.
  pose proof (inv_reachable _ _ _ HM p0 Hr) as Hinv.
  cbn [Process.run] in Hrun.
  destruct (Process.step py_repr json_dumps sys_maxsize (Process.PFetch k) p0)
    as [pa|] eqn:Hstep; [|done].
  pose proof (issued_step _ _ _ _ _ _ Hstep) as Hm1.
  pose proof (issued_run _ _ _ _ _ _ Hrun) as Hm2.
  assert (Loop.holds seq (length (Loop.calls (Process.loop p0)))
            (Loop.now (Process.loop p0) + ResultStore.wait_seconds)
            ResultStore.Pending (Process.loop pa)) as Hha.
  { eapply process_fetch_holds; try done. lia. }
  assert (Loop.holds seq (length (Loop.calls (Process.loop p0)))
            (Loop.now (Process.loop p0) + ResultStore.wait_seconds)
            ResultStore.Pending (Process.loop p1)) as Hh1.
  { eapply (process_holds_run py_repr json_dumps sys_maxsize HM seq _ _ _ false
              evs pa p1); [by eapply inv_step|done|done|done| |done|done].
    by eapply quiet_unwoken. }
  split.
  - intros Hlt. destruct Hh1 as (Hi & _). simpl. rewrite Hi. simpl.
    unfold ResultStore.wait_seconds.
    destruct (Loop.now (Process.loop p0) + 60 <=? Loop.now (Process.loop p1))
      eqn:E; [lia|done].
  - intros Hge. by apply (holds_expire seq _ _ _ Hh1).
Qed.

(** The call that sent [send_msg] enters [fetch]; a second call is sent
    and fetched; 60 seconds pass. *)
Lemma X23_call_times_out_witness :
  ∃ p1 l2,
    Process.run Fixtures.repr Fixtures.dumps _SequenceGenerator.maxsize_64
      [Process.PFetch 0; ProcessFixtures.send_hi; Process.PFetch 0;
       Process.PLoop (Loop.EAdvance 60)] ProcessFixtures.one_sending = Some p1
    ∧ Loop.step (Loop.EExpire 0) (Process.loop p1) = Some l2
    ∧ Loop.status_of 0 l2
      = Some (Loop.Exited (Raise (NetworkError "WebSocket API call timeout"))).
Proof.
  destruct (Process.run Fixtures.repr Fixtures.dumps
              _SequenceGenerator.maxsize_64
              [Process.PFetch 0; ProcessFixtures.send_hi; Process.PFetch 0;
               Process.PLoop (Loop.EAdvance 60)] ProcessFixtures.one_sending)
    as [p1|] eqn:Hrun; [|vm_compute in Hrun; discriminate].
  destruct (X23_call_times_out Fixtures.repr Fixtures.dumps
              _SequenceGenerator.maxsize_64 ProcessFixtures.one_sending p1 0 1
              [ProcessFixtures.send_hi; Process.PFetch 0;
               Process.PLoop (Loop.EAdvance 60)]) as (_ & H).
  - reflexivity.
  - exists [ProcessFixtures.send_hi]. vm_compute. reflexivity.
  - reflexivity.
  - repeat constructor.
  - exact Hrun.
  - vm_compute in Hrun. injection Hrun as <-. vm_compute. discriminate.
  - destruct H as (l2 & H1 & H2 & _).
    { vm_compute in Hrun. injection Hrun as <-. vm_compute. discriminate. }
    exists p1, l2. split; [reflexivity|]. split; [exact H1|exact H2].
Defined.

(** X24.  A call of the persistent transport that has sent its frame and
    entered [fetch] returns [_handle_api_result] of the first reply that
    carries its number, whatever the other calls of the process do
    meanwhile and however many further replies for the number follow,
    provided it is woken by that result and not cancelled first. *)
Theorem X24_call_gets_reply (py_repr json_dumps : value → string)
    (sys_maxsize : Z) (p0 p1 : Process.t) (k : nat) (seq : Z)
    (evs1 evs2 : list Process.event) (reply : gmap string value) :
  1 < sys_maxsize →
  Process.reachable py_repr json_dumps sys_maxsize p0 →
  Process.sending p0 !! k = Some seq →
  ResultStore.echo_seq reply = Some seq →
  Forall (Process.quiet seq (length (Loop.calls (Process.loop p0)))) evs1 →
  Forall (Process.unwoken (length (Loop.calls (Process.loop p0)))) evs2 →
  Process.run py_repr json_dumps sys_maxsize
    (Process.PFetch k :: evs1
     ++ Process.PLoop (Loop.EAdd (VDict reply)) :: evs2) p0 = Some p1 →
  Z.of_N (Process.issued p1) ≤ sys_maxsize →
  ∃ l2,
    Loop.step (Loop.EResume (length (Loop.calls (Process.loop p0))))
      (Process.loop p1) = Some l2
    ∧ Loop.status_of (length (Loop.calls (Process.loop p0))) l2
      = Some (Loop.Exited (Ok (VDict reply)))
    ∧ WebSocketReverseApi.call_action_result (Ok (VDict reply))
      = _handle_api_result (VDict reply)
    ∧ ResultStore._futures (Loop.store l2) !! seq = None.
Proof.
  intros HM Hr Hk Hd Hevs1 Hevs2 Hrun Hle.
  pose proof (inv_reachable _ _ _ HM p0 Hr) as Hinv.
  cbn [Process.run] in Hrun.
  destruct (Process.step py_repr json_dumps sys_maxsize (Process.PFetch k) p0)
    as [pa|] eqn:Hstep; [|done].
  rewrite process_run_app in Hrun.
  destruct (Process.run py_repr json_dumps sys_maxsize evs1 pa)
    as [pb|] eqn:Hrun1; [|done].
  cbn [Process.run] in Hrun.
  destruct (Process.step py_repr json_dumps sys_maxsize
              (Process.PLoop (Loop.EAdd (VDict reply))) pb)
    as [pc|] eqn:Hadd; [|done].
  pose proof (issued_step _ _ _ _ _ _ Hstep) as Hm1.
  pose proof (issued_run _ _ _ _ _ _ Hrun1) as Hm2.
  pose proof (issued_step _ _ _ _ _ _ Hadd) as Hm3.
  pose proof (issued_run _ _ _ _ _ _ Hrun) as Hm4.
  assert (Process.inv sys_maxsize pa) as Hinva by (by eapply inv_step).
  assert (Process.inv sys_maxsize pb) as Hinvb by (by eapply inv_run).
  assert (Process.inv sys_maxsize pc) as Hinvc by (by eapply inv_step).
  assert (Loop.holds seq (length (Loop.calls (Process.loop p0)))
            (Loop.now (Process.loop p0) + ResultStore.wait_seconds)
            ResultStore.Pending (Process.loop pa)) as Hha.
  { eapply process_fetch_holds; try done. lia. }
  assert (Loop.holds seq (length (Loop.calls (Process.loop p0)))
            (Loop.now (Process.loop p0) + ResultStore.wait_seconds)
            ResultStore.Pending (Process.loop pb)) as Hhb.
  { eapply (process_holds_run py_repr json_dumps sys_maxsize HM seq _ _ _ false
              evs1 pa pb); [done| |done|done| |done|done]; [lia|].
    by eapply quiet_unwoken. }
  destruct (holds_add _ _ _ reply _ Hhb Hd) as (lc & Hlc & Hhc).
  assert (Process.loop pc = lc) as Hpc.
  { unfold Process.step in Hadd. rewrite Hlc in Hadd. by injection Hadd as <-. }
  rewrite <- Hpc in Hhc.
  assert (Loop.holds seq (length (Loop.calls (Process.loop p0)))
            (Loop.now (Process.loop p0) + ResultStore.wait_seconds)
            (ResultStore.Finished (VDict reply)) (Process.loop p1)) as Hh1.
  { eapply (process_holds_run py_repr json_dumps sys_maxsize HM seq _ _ _ true
              evs2 pc p1); [done|done|done|done|done|done|done]. }
  destruct (holds_resume _ _ _ _ _ Hh1) as (l2 & H1 & H2 & H3).
  exists l2. done.
Qed.

(** The call that sent [send_msg] enters [fetch]; two seconds later the
    reply for 1 arrives, and once more. *)
Lemma X24_call_gets_reply_witness :
  ∃ p1 l2,
    Process.run Fixtures.repr Fixtures.dumps _SequenceGenerator.maxsize_64
      [Process.PFetch 0; Process.PLoop (Loop.EAdvance 2);
       Process.PLoop (Loop.EAdd (VDict (Fixtures.reply 1)));
       Process.PLoop (Loop.EAdd (VDict (Fixtures.reply 1)))]
      ProcessFixtures.one_sending = Some p1
    ∧ Loop.step (Loop.EResume 0) (Process.loop p1) = Some l2
    ∧ Loop.status_of 0 l2
      = Some (Loop.Exited (Ok (VDict (Fixtures.reply 1)))).
Proof.
  destruct (Process.run Fixtures.repr Fixtures.dumps
              _SequenceGenerator.maxsize_64
              [Process.PFetch 0; Process.PLoop (Loop.EAdvance 2);
               Process.PLoop (Loop.EAdd (VDict (Fixtures.reply 1)));
               Process.PLoop (Loop.EAdd (VDict (Fixtures.reply 1)))]
              ProcessFixtures.one_sending)
    as [p1|] eqn:Hrun; [|vm_compute in Hrun; discriminate].
  destruct (X24_call_gets_reply Fixtures.repr Fixtures.dumps
              _SequenceGenerator.maxsize_64 ProcessFixtures.one_sending p1 0 1
              [Process.PLoop (Loop.EAdvance 2)]
              [Process.PLoop (Loop.EAdd (VDict (Fixtures.reply 1)))]
              (Fixtures.reply 1)) as (l2 & H1 & H2 & _).
  - reflexivity.
  - exists [ProcessFixtures.send_hi]. vm_compute. reflexivity.
  - reflexivity.
  - reflexivity.
  - repeat constructor.
  - repeat constructor.
  - exact Hrun.
  - vm_compute in Hrun. injection Hrun as <-. vm_compute. discriminate.
  - exists p1, l2. split; [reflexivity|]. split; [exact H1|exact H2].
Defined.
